(** * Viewfinder notifications: per-user sequence allocation

    A shallow embedding of [backend/db/notification.py].  The Python class
    [Notification] is a row of the NOTIFICATION table, keyed by
    [(user_id, notification_id)].  Its class methods allocate the next
    [notification_id] of a user by an optimistic loop: read the last row,
    build the candidate with the following id, and create it with a
    conditional write that fails when the id is already taken.

    The coroutines of the module suspend only at their two store calls
    ([RangeQuery] and [Update]), so a call is modelled as a task that performs
    one store call per step; a scheduler interleaves the steps of a pool of
    tasks over one shared table. *)

From Stdlib Require Import ZArith Lia Ascii String DecimalZ DecimalPos.
From stdpp Require Import base decidable option list sorting strings numbers gmap.

Local Open Scope string_scope.
Local Open Scope list_scope.
Local Open Scope Z_scope.

(** ** Data model *)

(** Errors that can reach the code of the module. *)
Inductive Exception : Type :=
  | ConditionalCheckFailed          (* the [expected] clause of a write did not hold *)
  | StoreError (reason : string)    (* I/O failure, timeout or throttling of the store *)
  | EncodingError                   (* [json.dumps] of a value that is not serializable *)
  | DecodingError.                  (* [json.loads] of a text that is not JSON *)

#[global] Instance Exception_eq_dec : EqDecision Exception.
Proof. solve_decision. Defined.

(** The operation that triggers a notification; only these four attributes of
    it are read. *)
Module Operation.
Record t : Type := Build {
  user_id : Z;
  device_id : Z;
  operation_id : string;
  timestamp : Z
}.
End Operation.

(** A row of the NOTIFICATION table.  Columns that a code path of the module
    may leave unassigned ([None] in Python) are options; [invalidate] holds
    the JSON text.  Timestamps are only copied, never computed with, and are
    taken to be integers. *)
Record Notification : Type := mkNotification {
  user_id : Z;
  notification_id : Z;
  name : string;
  timestamp : Z;
  sender_id : Z;
  sender_device_id : Z;
  op_id : option string;
  badge : Z;
  invalidate : option string;
  activity_id : option string;
  viewpoint_id : option string;
  update_seq : option Z;
  viewed_seq : option Z
}.

#[global] Instance Notification_eq_dec : EqDecision Notification.
Proof. solve_decision. Defined.

Definition key (n : Notification) : Z * Z := (user_id n, notification_id n).

(** Columns that an [expected] clause can mention. *)
Inductive Column : Type :=
  | col_user_id | col_notification_id | col_name | col_timestamp
  | col_sender_id | col_sender_device_id | col_op_id | col_badge
  | col_invalidate | col_activity_id | col_viewpoint_id
  | col_update_seq | col_viewed_seq.

#[global] Instance Column_eq_dec : EqDecision Column.
Proof. solve_decision. Defined.

(** [expected={col: False}]: the column must be absent from the stored row. *)
Inductive Expected : Type :=
  | NoExpectation
  | ExpectAbsent (col : Column).

#[global] Instance Expected_eq_dec : EqDecision Expected.
Proof. solve_decision. Defined.

(** A call to the store, as recorded in the trace of the world. *)
Inductive IoEvent : Type :=
  | EvRangeQuery (uid : Z) (limit : option nat)
                 (scan_forward consistent_read : bool)
  | EvUpdate (n : Notification) (expected : Expected).

#[global] Instance IoEvent_eq_dec : EqDecision IoEvent.
Proof. solve_decision. Defined.

(** The store: the committed rows, newest first, and the calls it received,
    newest first. *)
Record World : Type := mkWorld {
  table : list Notification;
  trace : list IoEvent
}.

(** What the environment decides at one store call: how many of the newest
    commits an eventually consistent read misses, and whether the call fails
    with an error of the store itself. *)
Record EnvChoice : Type := mkEnv {
  lag : nat;
  fault : option Exception
}.

Definition healthy : EnvChoice := {| lag := 0; fault := None |}.

(** ** The store monad: state passing with exceptions *)

Definition DB (A : Type) : Type := World -> (Exception + A) * World.

Definition ret {A} (a : A) : DB A := fun w => (inr a, w).

Definition raise {A} (e : Exception) : DB A := fun w => (inl e, w).

Definition bind {A B} (m : DB A) (k : A -> DB B) : DB B :=
  fun w =>
    match m w with
    | (inr a, w') => k a w'
    | (inl e, w') => (inl e, w')
    end.

(** [try: m except Exception as e: h e] *)
Definition try_except {A} (m : DB A) (h : Exception -> DB A) : DB A :=
  fun w =>
    match m w with
    | (inr a, w') => (inr a, w')
    | (inl e, w') => h e w'
    end.

Definition log_event (ev : IoEvent) : DB unit :=
  fun w => (inr tt, {| table := table w; trace := ev :: trace w |}).

Notation "x <- c1 ;; c2" := (bind c1 (fun x => c2))
  (at level 100, c1 at next level, right associativity).
Notation "c1 ;;; c2" := (bind c1 (fun _ => c2))
  (at level 100, right associativity).

Definition lift {A} (r : Exception + A) : DB A := fun w => (r, w).

(** ** The store *)

Definition id_le (a b : Notification) : Prop :=
  notification_id a <= notification_id b.

Definition id_ge (a b : Notification) : Prop :=
  notification_id b <= notification_id a.

#[global] Instance id_le_dec : RelDecision id_le.
Proof. intros a b; unfold id_le; apply _. Defined.

#[global] Instance id_ge_dec : RelDecision id_ge.
Proof. intros a b; unfold id_ge; apply _. Defined.

(** The rows a read is served from, after the two consistency levels of the
    spec: a strongly consistent read sees every commit, an eventually
    consistent one may miss the newest [lag] of them. *)
Definition visible (consistent_read : bool) (ch : EnvChoice)
    (rows : list Notification) : list Notification :=
  if consistent_read then rows else drop (lag ch) rows.

Definition partition_of (uid : Z) (rows : list Notification) : list Notification :=
  filter (fun n => user_id n = uid) rows.

Definition scan (scan_forward : bool) (rows : list Notification) : list Notification :=
  if scan_forward then merge_sort id_le rows else merge_sort id_ge rows.

Definition up_to (limit : option nat) (rows : list Notification) : list Notification :=
  match limit with
  | Some k => take k rows
  | None => rows
  end.

(** Modelled from the spec: [DBRangeObject.RangeQuery] is not in the module.
    Given the partition key, a limit, the scan direction and the consistency
    level it returns the matching rows in sort-key order.  The module always
    passes [range_desc=None] and [col_names=None] (whole partition, all
    columns), which are left out. *)
Definition RangeQuery (ch : EnvChoice) (uid : Z) (limit : option nat)
    (scan_forward consistent_read : bool) : DB (list Notification) :=
  log_event (EvRangeQuery uid limit scan_forward consistent_read) ;;;
  match fault ch with
  | Some e => raise e
  | None => fun w =>
      (inr (up_to limit (scan scan_forward
              (partition_of uid (visible consistent_read ch (table w))))), w)
  end.

Definition stored (k : Z * Z) (rows : list Notification) : option Notification :=
  head (filter (fun n => key n = k) rows).

Definition column_present (col : Column) (cur : option Notification) : bool :=
  match cur with
  | None => false
  | Some n =>
      match col with
      | col_op_id => bool_decide (is_Some (op_id n))
      | col_invalidate => bool_decide (is_Some (invalidate n))
      | col_activity_id => bool_decide (is_Some (activity_id n))
      | col_viewpoint_id => bool_decide (is_Some (viewpoint_id n))
      | col_update_seq => bool_decide (is_Some (update_seq n))
      | col_viewed_seq => bool_decide (is_Some (viewed_seq n))
      | _ => true
      end
  end.

Definition holds (expected : Expected) (cur : option Notification) : bool :=
  match expected with
  | NoExpectation => true
  | ExpectAbsent col => negb (column_present col cur)
  end.

Definition put_row (n : Notification) (rows : list Notification) : list Notification :=
  match stored (key n) rows with
  | Some _ => (fun m => if decide (key m = key n) then n else m) <$> rows
  | None => n :: rows
  end.

(** Modelled from the spec: [DBObject.Update] is not in the module.  Given a
    full row and a predicate on the row currently stored under its key, it
    applies the write only if the predicate holds at that moment; otherwise it
    fails without side effect, with an error of its own kind. *)
Definition Update (ch : EnvChoice) (self : Notification) (expected : Expected) : DB unit :=
  log_event (EvUpdate self expected) ;;;
  match fault ch with
  | Some e => raise e
  | None => fun w =>
      if holds expected (stored (key self) (table w))
      then (inr tt, {| table := put_row self (table w); trace := trace w |})
      else (inl ConditionalCheckFailed, w)
  end.

(** ** JSON text

    [json.dumps] and [json.loads] are Python's; the code of the module is kept
    generic in them (see [Section Codec]).  This is a model of the two on the
    values that have an exact text form: [None], booleans, integers, strings
    of code points below 256, lists, and dictionaries with string keys.
    [dumps] writes the layout that [json.dumps] gives by default.  [loads]
    reads a text in any layout: white space between the tokens, the escapes
    of a string, an object in which a key comes again.  Floats are left out:
    a number with a fraction or an exponent is not read. *)

Module Json.

#[local] Set Warnings "-register-all".

Inductive value : Type :=
  | Null
  | Bool (b : bool)
  | Int (z : Z)
  | Str (s : string)
  | List (items : list value)
  | Dict (members : list (string * value)).

(** *** Writing *)

Definition hex_digit (n : N) : ascii :=
  if (n <? 10)%N then ascii_of_N (48 + n) else ascii_of_N (87 + n).

(** A character inside a string literal. *)
Definition print_char (c : ascii) : list ascii :=
  if Ascii.eqb c "034" then ["092"; "034"]%char
  else if Ascii.eqb c "092" then ["092"; "092"]%char
  else if Ascii.eqb c "010" then ["092"; "n"]%char
  else if Ascii.eqb c "013" then ["092"; "r"]%char
  else if Ascii.eqb c "009" then ["092"; "t"]%char
  else if Ascii.eqb c "008" then ["092"; "b"]%char
  else if Ascii.eqb c "012" then ["092"; "f"]%char
  else if ((N_of_ascii c <? 32) || (126 <? N_of_ascii c))%N then
    ["092"; "u"; "0"; "0";
     hex_digit (N_of_ascii c / 16); hex_digit (N_of_ascii c mod 16)]%char
  else [c].

Definition print_string (s : string) : list ascii :=
  "034"%char :: flat_map print_char (list_ascii_of_string s) ++ ["034"%char].

Fixpoint print_uint (d : Decimal.uint) : list ascii :=
  match d with
  | Decimal.Nil => []
  | Decimal.D0 d => "0"%char :: print_uint d
  | Decimal.D1 d => "1"%char :: print_uint d
  | Decimal.D2 d => "2"%char :: print_uint d
  | Decimal.D3 d => "3"%char :: print_uint d
  | Decimal.D4 d => "4"%char :: print_uint d
  | Decimal.D5 d => "5"%char :: print_uint d
  | Decimal.D6 d => "6"%char :: print_uint d
  | Decimal.D7 d => "7"%char :: print_uint d
  | Decimal.D8 d => "8"%char :: print_uint d
  | Decimal.D9 d => "9"%char :: print_uint d
  end.

Definition print_int (d : Decimal.int) : list ascii :=
  match d with
  | Decimal.Pos d => print_uint d
  | Decimal.Neg d => "-"%char :: print_uint d
  end.

(** The items of an array or the members of an object, up to the closing
    bracket. *)
Definition print_seq {A} (pr : A -> list ascii) (close : ascii) : list A -> list ascii :=
  fix go (l : list A) : list ascii :=
    match l with
    | [] => [close]
    | x :: l' =>
        pr x ++
        match l' with
        | [] => [close]
        | _ :: _ => ","%char :: " "%char :: go l'
        end
    end.

Definition print_member (pr : value -> list ascii) (kv : string * value) : list ascii :=
  print_string (fst kv) ++ ":"%char :: " "%char :: pr (snd kv).

Fixpoint print (v : value) : list ascii :=
  match v with
  | Null => ["n"; "u"; "l"; "l"]%char
  | Bool true => ["t"; "r"; "u"; "e"]%char
  | Bool false => ["f"; "a"; "l"; "s"; "e"]%char
  | Int z => print_int (Z.to_int z)
  | Str s => print_string s
  | List items => "["%char :: print_seq print "]"%char items
  | Dict members => "{"%char :: print_seq (print_member print) "}"%char members
  end.

(** *** Reading *)

(** White space between the tokens of a text. *)
Definition is_ws (c : ascii) : bool :=
  Ascii.eqb c " " || Ascii.eqb c "009" || Ascii.eqb c "010" || Ascii.eqb c "013".

Fixpoint skip_ws (s : list ascii) : list ascii :=
  match s with
  | c :: rest => if is_ws c then skip_ws rest else s
  | [] => []
  end.

Definition hex_value (c : ascii) : option N :=
  let n := N_of_ascii c in
  if ((48 <=? n) && (n <=? 57))%N then Some (n - 48)%N
  else if ((97 <=? n) && (n <=? 102))%N then Some (n - 87)%N
  else if ((65 <=? n) && (n <=? 70))%N then Some (n - 55)%N
  else None.

(** The character that a two-character escape stands for. *)
Definition unescape (e : ascii) : option ascii :=
  if Ascii.eqb e "034" || Ascii.eqb e "092" || Ascii.eqb e "/" then Some e
  else if Ascii.eqb e "n" then Some "010"%char
  else if Ascii.eqb e "r" then Some "013"%char
  else if Ascii.eqb e "t" then Some "009"%char
  else if Ascii.eqb e "b" then Some "008"%char
  else if Ascii.eqb e "f" then Some "012"%char
  else None.

(** The characters of a string literal, after its opening quote.  A control
    character must be escaped. *)
Fixpoint parse_chars (s : list ascii) : option (list ascii * list ascii) :=
  match s with
  | [] => None
  | c :: rest =>
      if Ascii.eqb c "034" then Some ([], rest)
      else if Ascii.eqb c "092" then
        match rest with
        | e :: rest1 =>
            if Ascii.eqb e "u" then
              match rest1 with
              | h1 :: h2 :: h3 :: h4 :: rest2 =>
                  match hex_value h3, hex_value h4 with
                  | Some a, Some b =>
                      if Ascii.eqb h1 "0" && Ascii.eqb h2 "0" then
                        match parse_chars rest2 with
                        | Some (cs, rest3) =>
                            Some (ascii_of_N (16 * a + b) :: cs, rest3)
                        | None => None
                        end
                      else None
                  | _, _ => None
                  end
              | _ => None
              end
            else
              match unescape e with
              | Some c' =>
                  match parse_chars rest1 with
                  | Some (cs, rest3) => Some (c' :: cs, rest3)
                  | None => None
                  end
              | None => None
              end
        | [] => None
        end
      else if (N_of_ascii c <? 32)%N then None
      else
        match parse_chars rest with
        | Some (cs, rest3) => Some (c :: cs, rest3)
        | None => None
        end
  end.

Definition digit (c : ascii) : option (Decimal.uint -> Decimal.uint) :=
  if Ascii.eqb c "0" then Some Decimal.D0
  else if Ascii.eqb c "1" then Some Decimal.D1
  else if Ascii.eqb c "2" then Some Decimal.D2
  else if Ascii.eqb c "3" then Some Decimal.D3
  else if Ascii.eqb c "4" then Some Decimal.D4
  else if Ascii.eqb c "5" then Some Decimal.D5
  else if Ascii.eqb c "6" then Some Decimal.D6
  else if Ascii.eqb c "7" then Some Decimal.D7
  else if Ascii.eqb c "8" then Some Decimal.D8
  else if Ascii.eqb c "9" then Some Decimal.D9
  else None.

Fixpoint parse_uint (s : list ascii) : Decimal.uint * list ascii :=
  match s with
  | [] => (Decimal.Nil, [])
  | c :: rest =>
      match digit c with
      | Some d => let '(u, rest') := parse_uint rest in (d u, rest')
      | None => (Decimal.Nil, s)
      end
  end.

(** The digits of an integer: at least one, and no zero in front of
    another. *)
Definition integer_digits (u : Decimal.uint) : bool :=
  match u with
  | Decimal.Nil => false
  | Decimal.D0 Decimal.Nil => true
  | Decimal.D0 _ => false
  | _ => true
  end.

Definition parse_int (s : list ascii) : option (Z * list ascii) :=
  match s with
  | [] => None
  | c :: rest =>
      if Ascii.eqb c "-" then
        let '(u, rest') := parse_uint rest in
        if integer_digits u then Some (Z.of_int (Decimal.Neg u), rest') else None
      else
        let '(u, rest') := parse_uint s in
        if integer_digits u then Some (Z.of_int (Decimal.Pos u), rest') else None
  end.

(** A key that comes again in an object replaces the value of its first
    occurrence, as an assignment to a [dict] does. *)
Fixpoint assign {A} (k : string) (v : A) (l : list (string * A)) : list (string * A) :=
  match l with
  | [] => [(k, v)]
  | (k', v') :: l' =>
      if String.eqb k' k then (k', v) :: l' else (k', v') :: assign k v l'
  end.

Definition as_dict {A} (l : list (string * A)) : list (string * A) :=
  fold_left (fun d kv => assign (fst kv) (snd kv) d) l [].

Fixpoint parse (fuel : nat) (s : list ascii) : option (value * list ascii) :=
  match fuel with
  | O => None
  | S fuel =>
      match skip_ws s with
      | "n" :: "u" :: "l" :: "l" :: rest => Some (Null, rest)
      | "t" :: "r" :: "u" :: "e" :: rest => Some (Bool true, rest)
      | "f" :: "a" :: "l" :: "s" :: "e" :: rest => Some (Bool false, rest)
      | "034" :: rest =>
          match parse_chars rest with
          | Some (cs, rest') => Some (Str (string_of_list_ascii cs), rest')
          | None => None
          end
      | "[" :: rest =>
          match skip_ws rest with
          | "]" :: rest' => Some (List [], rest')
          | _ =>
              match parse_items fuel rest with
              | Some (items, rest') => Some (List items, rest')
              | None => None
              end
          end
      | "{" :: rest =>
          match skip_ws rest with
          | "}" :: rest' => Some (Dict [], rest')
          | _ =>
              match parse_members fuel rest with
              | Some (members, rest') => Some (Dict (as_dict members), rest')
              | None => None
              end
          end
      | s' =>
          match parse_int s' with
          | Some (z, rest') => Some (Int z, rest')
          | None => None
          end
      end%char
  end
with parse_items (fuel : nat) (s : list ascii) : option (list value * list ascii) :=
  match fuel with
  | O => None
  | S fuel =>
      match parse fuel s with
      | Some (v, rest) =>
          match skip_ws rest with
          | "," :: rest1 =>
              match parse_items fuel rest1 with
              | Some (items, rest') => Some (v :: items, rest')
              | None => None
              end
          | "]" :: rest' => Some ([v], rest')
          | _ => None
          end%char
      | None => None
      end
  end
with parse_members (fuel : nat) (s : list ascii)
    : option (list (string * value) * list ascii) :=
  match fuel with
  | O => None
  | S fuel =>
      match skip_ws s with
      | "034" :: s1 =>
          match parse_chars s1 with
          | Some (k, s2) =>
              match skip_ws s2 with
              | ":" :: s3 =>
                  match parse fuel s3 with
                  | Some (v, rest) =>
                      match skip_ws rest with
                      | "," :: rest1 =>
                          match parse_members fuel rest1 with
                          | Some (members, rest') =>
                              Some ((string_of_list_ascii k, v) :: members, rest')
                          | None => None
                          end
                      | "}" :: rest' => Some ([(string_of_list_ascii k, v)], rest')
                      | _ => None
                      end
                  | None => None
                  end
              | _ => None
              end
          | None => None
          end
      | _ => None
      end%char
  end.

(** Fuel that [parse] needs to read [print v] back. *)
Definition need_seq {A} (need : A -> nat) : list A -> nat :=
  fix go (l : list A) : nat :=
    match l with
    | [] => O
    | x :: l' => S (need x + go l')
    end.

Fixpoint need (v : value) : nat :=
  match v with
  | List items => S (need_seq need items)
  | Dict members => S (need_seq (fun kv => need (snd kv)) members)
  | _ => 1
  end.

Definition dumps (v : value) : string := string_of_list_ascii (print v).

Definition loads (text : string) : option value :=
  let s := list_ascii_of_string text in
  match parse (length s) s with
  | Some (v, rest) =>
      match skip_ws rest with
      | [] => Some v
      | _ :: _ => None
      end
  | None => None
  end.

(** What [loads] reads from the text of a value: the value with the members
    of every object assigned in turn. *)
Fixpoint as_loaded (v : value) : value :=
  match v with
  | List items => List (map as_loaded items)
  | Dict members => Dict (as_dict (map (fun kv => (fst kv, as_loaded (snd kv))) members))
  | _ => v
  end.

(** The keys of every object are distinct. *)
Fixpoint distinct_keys (v : value) : bool :=
  match v with
  | List items => forallb distinct_keys items
  | Dict members =>
      bool_decide (NoDup (map fst members)) &&
      forallb (fun kv => distinct_keys (snd kv)) members
  | _ => true
  end.

(** What may follow a number: anything but a digit. *)
Definition no_digit (rest : list ascii) : Prop :=
  match rest with
  | [] => True
  | c :: _ => digit c = None
  end.

(** The first character of a value is not a closing bracket nor white
    space. *)
Definition opens (c : ascii) : Prop :=
  c <> "]"%char /\ c <> "}"%char /\ is_ws c = false.

Definition reads_back (v : value) : Prop :=
  forall fuel rest,
    (need v <= fuel)%nat -> no_digit rest ->
    parse fuel (print v ++ rest) = Some (as_loaded v, rest).

Definition encode (v : value) : Exception + string := inr (dumps v).

Definition decode (text : string) : Exception + value :=
  match loads text with
  | Some v => inr v
  | None => inl DecodingError
  end.

End Json.

(** ** Payloads

    The dictionaries that the callers hand to [SetInvalidate], as Python has
    them: next to what JSON has, a tuple, and a dictionary key that is an
    integer.  [json.dumps] writes a tuple as an array and an integer key as
    the string of its digits; [json.loads] gives lists, and string keys. *)

Module Py.

#[local] Set Warnings "-register-all".

Inductive key : Type :=
  | KStr (s : string)
  | KInt (z : Z).

Inductive value : Type :=
  | NoneValue
  | Bool (b : bool)
  | Int (z : Z)
  | Str (s : string)
  | List (items : list value)
  | Tuple (items : list value)
  | Dict (members : list (key * value)).

(** The key under which [json.dumps] writes a member. *)
Definition key_text (k : key) : string :=
  match k with
  | KStr s => s
  | KInt z => string_of_list_ascii (Json.print_int (Z.to_int z))
  end.

Fixpoint to_json (v : value) : Json.value :=
  match v with
  | NoneValue => Json.Null
  | Bool b => Json.Bool b
  | Int z => Json.Int z
  | Str s => Json.Str s
  | List items => Json.List (map to_json items)
  | Tuple items => Json.List (map to_json items)
  | Dict members => Json.Dict (map (fun kv => (key_text (fst kv), to_json (snd kv))) members)
  end.

Fixpoint of_json (j : Json.value) : value :=
  match j with
  | Json.Null => NoneValue
  | Json.Bool b => Bool b
  | Json.Int z => Int z
  | Json.Str s => Str s
  | Json.List items => List (map of_json items)
  | Json.Dict members => Dict (map (fun kv => (KStr (fst kv), of_json (snd kv))) members)
  end.

Definition dumps (v : value) : string := Json.dumps (to_json v).

Definition loads (text : string) : option value := of_json <$> Json.loads text.

Definition encode (v : value) : Exception + string := inr (dumps v).

Definition decode (text : string) : Exception + value :=
  match loads text with
  | Some v => inr v
  | None => inl DecodingError
  end.




End Py.

(** ** The module's code *)

(** The arguments of one [CreateForUser] call ([consistent_read] apart, which
    the loop reassigns). *)
Module Call.
Record t (Payload : Type) : Type := Build {
  operation : Operation.t;
  user_id : Z;
  name : string;
  invalidate : option Payload;
  activity_id : option string;
  viewpoint_id : option string;
  seq_num_pair : option (option Z * option Z);
  inc_badge : bool
}.
Arguments Build {Payload}.
Arguments operation {Payload}.
Arguments user_id {Payload}.
Arguments name {Payload}.
Arguments invalidate {Payload}.
Arguments activity_id {Payload}.
Arguments viewpoint_id {Payload}.
Arguments seq_num_pair {Payload}.
Arguments inc_badge {Payload}.
End Call.

(** What a finished call hands back to its caller. *)
Inductive Result : Type :=
  | RetNotification (n : Notification)
  | RetBool (b : bool)
  | Raised (e : Exception).

(** A call in progress: the point where its coroutine is suspended. *)
Inductive Task (Payload : Type) : Type :=
  | CreateForUser_query (c : Call.t Payload) (consistent_read : bool)
  | CreateForUser_write (c : Call.t Payload) (consistent_read : bool)
                        (notification : Notification)
  | TryClearBadge_write (notification : Notification)
  | Finished (r : Result).
Arguments CreateForUser_query {Payload}.
Arguments CreateForUser_write {Payload}.
Arguments TryClearBadge_write {Payload}.
Arguments Finished {Payload}.

Definition set_invalidate (self : Notification) (text : string) : Notification :=
  {| user_id := user_id self;
     notification_id := notification_id self;
     name := name self;
     timestamp := timestamp self;
     sender_id := sender_id self;
     sender_device_id := sender_device_id self;
     op_id := op_id self;
     badge := badge self;
     invalidate := Some text;
     activity_id := activity_id self;
     viewpoint_id := viewpoint_id self;
     update_seq := update_seq self;
     viewed_seq := viewed_seq self |}.

Section Codec.

(** [json.dumps] and [json.loads] belong to Python's library: the payload type
    and the two functions are parameters of the development. *)
Context {Payload : Type}.
Variable json_dumps : Payload -> Exception + string.
Variable json_loads : string -> Exception + Payload.


(** [Notification.SetInvalidate] *)
Definition SetInvalidate (self : Notification) (invalidate_dict : Payload)
    : Exception + Notification :=
  match json_dumps invalidate_dict with
  | inr text => inr (set_invalidate self text)
  | inl e => inl e
  end.

(** [Notification._TryUpdate]: any exception of the write is caught, logged
    with [logging.info], and turned into [False]. *)
Definition _TryUpdate (ch : EnvChoice) (self : Notification) : DB bool :=
  try_except
    (Update ch self (ExpectAbsent col_notification_id) ;;; ret true)
    (fun e => ret false).

(** [Notification.TryClearBadge], up to its only suspension point: the row is
    assembled when the call is made, [now] being [util.GetCurrentTimestamp()]. *)
Definition clear_badges_row (now user_id device_id notification_id : Z) : Notification :=
  {| user_id := user_id;
     notification_id := notification_id;
     name := "clear_badges";
     timestamp := now;
     sender_id := user_id;
     sender_device_id := device_id;
     op_id := None;
     badge := 0;
     invalidate := None;
     activity_id := None;
     viewpoint_id := None;
     update_seq := None;
     viewed_seq := None |}.

(** [Notification.TryClearBadge] *)
Definition TryClearBadge (ch : EnvChoice) (now user_id device_id notification_id : Z)
    : DB bool :=
  let notification := clear_badges_row now user_id device_id notification_id in
  success <- _TryUpdate ch notification ;;
  ret success.

(** [Notification.QueryLast] *)
Definition QueryLast (ch : EnvChoice) (user_id : Z) (consistent_read : bool)
    : DB (option Notification) :=
  notification_list <- RangeQuery ch user_id (Some 1%nat) false consistent_read ;;
  ret (if (0 <? length notification_list)%nat
       then notification_list !! 0%nat else None).

(** Lines 119-124 of [CreateForUser]: the id of the candidate and the badge
    carried over from the last row. *)
Definition next_id_badge (last_notification : option Notification) : Z * Z :=
  match last_notification with
  | None => (1, 0)
  | Some last => (notification_id last + 1, badge last)
  end.

(** Lines 133-140: the sequence numbers stored on the candidate. *)
Definition seq_nums (operation : Operation.t) (user_id : Z)
    (seq_num_pair : option (option Z * option Z)) : option Z * option Z :=
  match seq_num_pair with
  | Some (update_seq, viewed_seq) =>
      (update_seq,
       match viewed_seq with
       | Some v => if decide (Operation.user_id operation = user_id)
                   then Some v else None
       | None => None
       end)
  | None => (None, None)
  end.

(** Lines 119-149 of [CreateForUser]: the candidate built from the last row.
    Only [SetInvalidate] can raise. *)
Definition candidate (c : Call.t Payload) (last_notification : option Notification)
    : Exception + Notification :=
  let '(notification_id, badge) := next_id_badge last_notification in
  let '(update_seq, viewed_seq) :=
    seq_nums (Call.operation c) (Call.user_id c) (Call.seq_num_pair c) in
  let badge := if Call.inc_badge c then badge + 1 else badge in
  let notification :=
    {| user_id := Call.user_id c;
       notification_id := notification_id;
       name := Call.name c;
       timestamp := Operation.timestamp (Call.operation c);
       sender_id := Operation.user_id (Call.operation c);
       sender_device_id := Operation.device_id (Call.operation c);
       op_id := Some (Operation.operation_id (Call.operation c));
       badge := badge;
       invalidate := None;
       activity_id := Call.activity_id c;
       viewpoint_id := Call.viewpoint_id c;
       update_seq := update_seq;
       viewed_seq := viewed_seq |} in
  match Call.invalidate c with
  | Some invalidate_dict => SetInvalidate notification invalidate_dict
  | None => inr notification
  end.

(** [Notification.CreateForUser], called on its own: the [while True] loop,
    unrolled at most [fuel] times.  [env] gives the environment's choice at
    each store call of the run, in order.  [None] means that the loop has not
    returned within [fuel] iterations; Python has no such value. *)
Fixpoint CreateForUser (fuel : nat) (env : nat -> EnvChoice) (c : Call.t Payload)
    (consistent_read : bool) : DB (option Notification) :=
  match fuel with
  | O => ret None
  | S fuel =>
      last_notification <- QueryLast (env 0%nat) (Call.user_id c) consistent_read ;;
      notification <- lift (candidate c last_notification) ;;
      success <- _TryUpdate (env 1%nat) notification ;;
      if success : bool then ret (Some notification)
      else CreateForUser fuel (fun i => env (2 + i)%nat) c true
  end.

(** ** Calls as tasks *)

Definition start_CreateForUser (c : Call.t Payload) (consistent_read : bool)
    : Task Payload :=
  CreateForUser_query c consistent_read.

Definition start_TryClearBadge (now user_id device_id notification_id : Z)
    : Task Payload :=
  TryClearBadge_write (clear_badges_row now user_id device_id notification_id).

(** One step of a task: it runs from the store call it is suspended at to the
    next one, or to its end. *)
Definition step_task (ch : EnvChoice) (t : Task Payload) (w : World)
    : Task Payload * World :=
  match t with
  | CreateForUser_query c consistent_read =>
      match (last_notification <- QueryLast ch (Call.user_id c) consistent_read ;;
             lift (candidate c last_notification)) w with
      | (inr notification, w') => (CreateForUser_write c consistent_read notification, w')
      | (inl e, w') => (Finished (Raised e), w')
      end
  | CreateForUser_write c consistent_read notification =>
      match _TryUpdate ch notification w with
      | (inr true, w') => (Finished (RetNotification notification), w')
      | (inr false, w') => (CreateForUser_query c true, w')
      | (inl e, w') => (Finished (Raised e), w')
      end
  | TryClearBadge_write notification =>
      match _TryUpdate ch notification w with
      | (inr success, w') => (Finished (RetBool success), w')
      | (inl e, w') => (Finished (Raised e), w')
      end
  | Finished r => (t, w)
  end.

(** A task run on its own for [k] steps. *)
Fixpoint run_task (k : nat) (env : nat -> EnvChoice) (t : Task Payload) (w : World)
    : Task Payload * World :=
  match k with
  | O => (t, w)
  | S k =>
      let '(t', w') := step_task (env 0%nat) t w in
      run_task k (fun i => env (S i)) t' w'
  end.

(** A pool of calls over one store. *)
Record System : Type := mkSystem {
  pool : list (Task Payload);
  world : World
}.

(** The scheduler resumes task [i] with the environment's choice [ch]; an
    index outside the pool does nothing. *)
Definition sched_step (s : System) (l : nat * EnvChoice) : System :=
  match pool s !! l.1 with
  | Some t =>
      let '(t', w') := step_task l.2 t (world s) in
      {| pool := <[l.1 := t']> (pool s); world := w' |}
  | None => s
  end.

Definition run (schedule : list (nat * EnvChoice)) (s : System) : System :=
  foldl sched_step s schedule.

(** The rows that the finished [CreateForUser] calls of a pool returned. *)
Definition returned_row (t : Task Payload) : option Notification :=
  match t with
  | Finished (RetNotification n) => Some n
  | _ => None
  end.

Definition returned (ts : list (Task Payload)) : list Notification :=
  omap returned_row ts.

(** Every committed key is stored once, and the calls that returned hold
    distinct stored keys. *)
Definition consistent (s : System) : Prop :=
  NoDup (key <$> table (world s)) /\
  NoDup (key <$> returned (pool s)) /\
  forall n, n ∈ returned (pool s) -> key n ∈ key <$> table (world s).

(** The [viewed_seq] that lines 133-140 leave on the row. *)
Definition viewed_seq_of (c : Call.t Payload) : option Z :=
  match Call.seq_num_pair c with
  | Some (_, Some v) =>
      if decide (Operation.user_id (Call.operation c) = Call.user_id c)
      then Some v else None
  | _ => None
  end.

(** Calls of [CreateForUser] never finish with a boolean. *)
Definition allocating (t : Task Payload) : Prop :=
  match t with
  | TryClearBadge_write _ | Finished (RetBool _) => False
  | _ => True
  end.

End Codec.

(** ** Auxiliary notions used in the statements *)

(** Whether a conditional create of [n] goes through: the store does not fail
    and no row is stored under the key of [n]. *)
Definition creates (ch : EnvChoice) (n : Notification) (rows : list Notification) : bool :=
  match fault ch, stored (key n) rows with
  | None, None => true
  | _, _ => false
  end.

Definition update_event (n : Notification) : IoEvent :=
  EvUpdate n (ExpectAbsent col_notification_id).

Definition logged (ev : IoEvent) (w : World) : World :=
  {| table := table w; trace := ev :: trace w |}.

Definition committed (n : Notification) (w : World) : World :=
  {| table := n :: table w; trace := update_event n :: trace w |}.

(** The increment requested by a call. *)
Definition increment {Payload} (c : Call.t Payload) : Z :=
  if Call.inc_badge c then 1 else 0.

(** The payload of a call can be serialized. *)
Definition encodable {Payload} (json_dumps : Payload -> Exception + string)
    (c : Call.t Payload) : Prop :=
  match Call.invalidate c with
  | Some invalidate_dict => exists text, json_dumps invalidate_dict = inr text
  | None => True
  end.

Definition fault_free (env : nat -> EnvChoice) : Prop :=
  forall i, fault (env i) = None.

(** Environments of a call run on its own: its reads are the even store
    calls, its writes the odd ones. *)
Definition answering_reads (env : nat -> EnvChoice) : Prop :=
  forall i, Nat.even i = true -> fault (env i) = None.

Definition failing_writes (env : nat -> EnvChoice) : Prop :=
  forall i, Nat.even i = false -> fault (env i) <> None.

(** A store call that is not an unconditional write. *)
Definition conditional_create (ev : IoEvent) : Prop :=
  match ev with
  | EvUpdate _ expected => expected = ExpectAbsent col_notification_id
  | EvRangeQuery _ _ _ _ => True
  end.

(** The ids that the returned rows of user [uid] carry. *)
Definition ids_of (uid : Z) (rows : list Notification) : list Z :=
  notification_id <$> filter (fun n => user_id n = uid) rows.

(** The row a descending scan of the partition starts with. *)
Definition last_row (uid : Z) (rows : list Notification) : option Notification :=
  head (scan false (partition_of uid rows)).


(** ** Concrete calls, on which the statements are exercised *)

Module Example.

(** User 7 shares from device 70; user 8 comments on what user 7 follows. *)
Definition operation : Operation.t :=
  {| Operation.user_id := 7; Operation.device_id := 70;
     Operation.operation_id := "op-1"; Operation.timestamp := 1000 |}.

Definition foreign_operation : Operation.t :=
  {| Operation.user_id := 8; Operation.device_id := 80;
     Operation.operation_id := "op-2"; Operation.timestamp := 1001 |}.

Definition payload : Json.value :=
  Json.Dict
    [("viewpoints",
      Json.List [Json.Dict [("viewpoint_id", Json.Str "v-1");
                            ("get_followers", Json.Bool true)]])].

Definition share : Call.t Json.value :=
  {| Call.operation := operation; Call.user_id := 7; Call.name := "share";
     Call.invalidate := Some payload; Call.activity_id := Some "a-1";
     Call.viewpoint_id := Some "v-1"; Call.seq_num_pair := Some (Some 4, Some 5);
     Call.inc_badge := true |}.

Definition comment : Call.t Json.value :=
  {| Call.operation := foreign_operation; Call.user_id := 7; Call.name := "comment";
     Call.invalidate := None; Call.activity_id := None; Call.viewpoint_id := None;
     Call.seq_num_pair := Some (Some 6, Some 6); Call.inc_badge := true |}.

Definition empty : World := {| table := []; trace := [] |}.

Definition stale : EnvChoice := {| lag := 1; fault := None |}.

Definition timeout : EnvChoice := {| lag := 0; fault := Some (StoreError "timeout") |}.

(** Reads are answered, every write times out. *)
Definition outage (i : nat) : EnvChoice := if Nat.even i then healthy else timeout.

(** The row that [comment] builds, under a given id and with a given badge. *)
Definition comment_row (id badge : Z) : Notification :=
  {| user_id := 7; notification_id := id; name := "comment"; timestamp := 1001;
     sender_id := 8; sender_device_id := 80; op_id := Some "op-2"; badge := badge;
     invalidate := None; activity_id := None; viewpoint_id := None;
     update_seq := Some 6; viewed_seq := None |}.

Definition marker : Notification := clear_badges_row 1002 7 70 5.

Definition marked : World := {| table := [marker]; trace := [] |}.

(** Three calls of user 7 in one pool, and an interleaving in which the two
    [CreateForUser] calls race for id 1. *)
Definition calls : list (Task Json.value) :=
  [start_CreateForUser share false; start_CreateForUser comment false;
   start_TryClearBadge 1002 7 70 5].

Definition race : list (nat * EnvChoice) :=
  [(0%nat, healthy); (1%nat, healthy); (0%nat, healthy); (1%nat, healthy);
   (2%nat, healthy); (1%nat, stale); (1%nat, healthy)].

(** Rows 1, 3 and 2 of user 7, written in that order, among rows of user 8. *)
Definition three : World :=
  {| table := [comment_row 2 1; clear_badges_row 1003 8 80 9; comment_row 3 2;
               comment_row 1 0];
     trace := [] |}.

End Example.

(** ** Further notions: accounting, well-formed rows, calls in sequence *)

Section Accounting.

Context {Payload : Type}.
Variable json_dumps : Payload -> Exception + string.

(** Whether a finished call has committed a row: 1 if so, else 0. *)
Definition credit (t : Task Payload) : nat :=
  match t with
  | Finished (RetNotification _) | Finished (RetBool true) => 1
  | _ => 0
  end.

Definition commits (ts : list (Task Payload)) : nat := sum_list_with credit ts.

(** The rows that returned calls hold are stored. *)
Definition returned_stored (s : @System Payload) : Prop :=
  forall n, n ∈ returned (pool s) -> n ∈ table (world s).

(** The row that a suspended call is about to write. *)
Definition pending_row (t : Task Payload) : option Notification :=
  match t with
  | CreateForUser_write _ _ n | TryClearBadge_write n => Some n
  | _ => None
  end.

(** The calls of a list run one after the other, each on its own, with a
    strongly consistent first read; the rows they return, oldest first.  The
    run stops at the first call that does not return within [fuel]
    iterations. *)
Fixpoint create_all (fuel : nat) (env : nat -> EnvChoice)
    (calls : list (Call.t Payload)) (w : World) : list Notification * World :=
  match calls with
  | [] => ([], w)
  | c :: calls =>
      match CreateForUser json_dumps fuel env c true w with
      | (inr (Some n), w') =>
          let '(ns, w'') := create_all fuel env calls w' in (n :: ns, w'')
      | (_, w') => ([], w')
      end
  end.

(** The badges of rows that follow a row of badge [b], one per call. *)
Fixpoint badges_from (b : Z) (calls : list (Call.t Payload)) : list Z :=
  match calls with
  | [] => []
  | c :: calls => (b + increment c) :: badges_from (b + increment c) calls
  end.

End Accounting.

(** A row with a positive id and a badge that is not negative. *)
Definition sound_row (n : Notification) : Prop :=
  1 <= notification_id n /\ 0 <= badge n.

(** The consistency levels of the reads of a trace, and its writes. *)
Definition reads_of (evs : list IoEvent) : list bool :=
  omap (fun ev => match ev with
                  | EvRangeQuery _ _ _ consistent_read => Some consistent_read
                  | EvUpdate _ _ => None
                  end) evs.

Definition writes_of (evs : list IoEvent) : list Notification :=
  omap (fun ev => match ev with
                  | EvUpdate n _ => Some n
                  | EvRangeQuery _ _ _ _ => None
                  end) evs.

(** The id and badge of the last row of a user, or zeros without one. *)
Definition top_of (uid : Z) (rows : list Notification) : Z * Z :=
  match last_row uid rows with
  | Some r => (notification_id r, badge r)
  | None => (0, 0)
  end.

(** A read that misses nothing. *)
Definition sees_all (consistent_read : bool) (ch : EnvChoice) : Prop :=
  consistent_read = true \/ lag ch = 0%nat.

Module Scenario.

(** User 7 has a row 3 with badge 2; user 8 has rows of its own. *)
Definition top : Notification := Example.comment_row 3 2.

Definition busy : World :=
  {| table := [clear_badges_row 1003 8 80 9; top; Example.comment_row 1 1];
     trace := [] |}.

(** The same rows of user 7 among other rows of user 8. *)
Definition busy_elsewhere : World :=
  {| table := [top; clear_badges_row 1004 8 81 2; Example.comment_row 1 1];
     trace := [] |}.

Definition quiet : Call.t Json.value :=
  {| Call.operation := Example.operation; Call.user_id := 7; Call.name := "update";
     Call.invalidate := None; Call.activity_id := None; Call.viewpoint_id := None;
     Call.seq_num_pair := None; Call.inc_badge := false |}.

Definition query_down : EnvChoice :=
  {| lag := 0; fault := Some (StoreError "unavailable") |}.

Definition reads_fail (i : nat) : EnvChoice := query_down.

(** The first write times out, the store answers from then on. *)
Definition flaky (i : nat) : EnvChoice :=
  if decide (i = 1%nat) then Example.timeout else healthy.

Definition three_calls : list (Call.t Json.value) :=
  [quiet; Example.comment; Example.comment].

(** The marker of [Example.marked], and a row that took id 6 after it. *)
Definition taken : World :=
  {| table := [Example.comment_row 6 4; Example.marker]; trace := [] |}.

End Scenario.

(** ** Reads that lag, payloads as Python has them, a failure after a retry *)

Module Cases.

(** Rows 1, 2 and 3 of user 7, written in that order. *)
Definition in_order : World :=
  {| table := [Example.comment_row 3 2; Example.comment_row 2 1;
               Example.comment_row 1 0];
     trace := [] |}.

(** A read that has seen none of the last three writes. *)
Definition blind : EnvChoice := {| lag := 3; fault := None |}.

(** The payload of [Example.share], as a Python value. *)
Definition payload : Py.value :=
  Py.Dict
    [(Py.KStr "viewpoints",
      Py.List [Py.Dict [(Py.KStr "viewpoint_id", Py.Str "v-1");
                        (Py.KStr "get_followers", Py.Bool true)]])].

Definition share : Call.t Py.value :=
  {| Call.operation := Example.operation; Call.user_id := 7; Call.name := "share";
     Call.invalidate := Some payload; Call.activity_id := Some "a-1";
     Call.viewpoint_id := Some "v-1"; Call.seq_num_pair := Some (Some 4, Some 5);
     Call.inc_badge := true |}.

Definition comment : Call.t Py.value :=
  {| Call.operation := Example.foreign_operation; Call.user_id := 7;
     Call.name := "comment";
     Call.invalidate := None; Call.activity_id := None; Call.viewpoint_id := None;
     Call.seq_num_pair := Some (Some 6, Some 6); Call.inc_badge := true |}.





(** The first write times out, and the query that follows is refused. *)
Definition late_failure (i : nat) : EnvChoice :=
  if decide (i = 1%nat) then Example.timeout
  else if decide (i = 2%nat) then Scenario.query_down
  else healthy.

(** The row that [Example.share] builds over [Scenario.busy]. *)
Definition share_row : Notification :=
  {| user_id := 7; notification_id := 4; name := "share"; timestamp := 1000;
     sender_id := 7; sender_device_id := 70; op_id := Some "op-1"; badge := 3;
     invalidate := Some (Json.dumps Example.payload); activity_id := Some "a-1";
     viewpoint_id := Some "v-1"; update_seq := Some 4; viewed_seq := Some 5 |}.

End Cases.

(** ** The store calls *)

Lemma filter_none {A} (P : A -> Prop) `{forall x, Decision (P x)} (l : list A) :
  (forall x, x ∈ l -> ~ P x) -> filter P l = [].
Proof.
  induction l as [|a l IH]; intros Hall; [done|].
  rewrite filter_cons_False by (apply Hall; left).
  apply IH. intros x Hx. apply Hall. by right.
Qed.

Lemma stored_None (k : Z * Z) (rows : list Notification) :
  stored k rows = None <-> k ∉ (key <$> rows).
Proof.
  unfold stored. rewrite head_None. split.
  - intros Hnil Hin. apply list_elem_of_fmap in Hin as (n & -> & Hn).
    assert (Hf : n ∈ filter (fun m => key m = key n) rows)
      by (apply list_elem_of_filter; auto).
    rewrite Hnil in Hf. by apply elem_of_nil in Hf.
  - intros Hnot. apply filter_none.
    intros n Hn Hk. apply Hnot, list_elem_of_fmap. eauto.
Qed.

Lemma stored_Some (k : Z * Z) (rows : list Notification) (n : Notification) :
  stored k rows = Some n -> n ∈ rows /\ key n = k.
Proof.
  unfold stored. intros H. apply head_Some_elem_of in H.
  by apply list_elem_of_filter in H as [? ?].
Qed.

Lemma Update_absent (ch : EnvChoice) (n : Notification) (w : World) :
  Update ch n (ExpectAbsent col_notification_id) w =
    match fault ch with
    | Some e => (inl e, logged (update_event n) w)
    | None =>
        match stored (key n) (table w) with
        | None => (inr tt, committed n w)
        | Some _ => (inl ConditionalCheckFailed, logged (update_event n) w)
        end
    end.
Proof.
  unfold Update, bind, log_event, raise, logged, committed, update_event, put_row.
  simpl. destruct (fault ch); [done|]. simpl.
  by destruct (stored (key n) (table w)).
Qed.

Lemma TryUpdate_eq (ch : EnvChoice) (n : Notification) (w : World) :
  _TryUpdate ch n w =
    if creates ch n (table w) then (inr true, committed n w)
    else (inr false, logged (update_event n) w).
Proof.
  unfold _TryUpdate, try_except, bind. rewrite Update_absent. unfold creates, ret.
  destruct (fault ch); [done|]. by destruct (stored (key n) (table w)).
Qed.

#[local] Instance id_ge_trans : Transitive id_ge.
Proof. unfold id_ge; intros a b c; lia. Qed.

#[local] Instance id_ge_total : Total id_ge.
Proof. unfold id_ge; intros a b; lia. Qed.

Lemma last_row_None (uid : Z) (rows : list Notification) :
  last_row uid rows = None <-> partition_of uid rows = [].
Proof.
  unfold last_row, scan. rewrite head_None. split; intros H.
  - apply Permutation_nil_r. rewrite <- H. symmetry. apply merge_sort_Permutation.
  - by rewrite H.
Qed.

Lemma last_row_Some (uid : Z) (rows : list Notification) (r : Notification) :
  last_row uid rows = Some r ->
  r ∈ rows /\ user_id r = uid /\
  forall m, m ∈ rows -> user_id m = uid -> notification_id m <= notification_id r.
Proof.
  unfold last_row, scan. intros H.
  pose proof (merge_sort_Permutation id_ge (partition_of uid rows)) as HP.
  pose proof (StronglySorted_merge_sort id_ge (partition_of uid rows)) as HS.
  destruct (merge_sort id_ge (partition_of uid rows)) as [|x l] eqn:E; [done|].
  simpl in H. injection H as ->.
  assert (Hr : r ∈ partition_of uid rows) by (rewrite <- HP; left).
  apply list_elem_of_filter in Hr as [Hu Hr]. split; [done|]. split; [done|].
  intros m Hm Hmu.
  assert (Hm' : m ∈ r :: l).
  { rewrite HP. apply list_elem_of_filter. auto. }
  apply StronglySorted_cons in HS as [HF _].
  apply elem_of_cons in Hm' as [->|Hm']; [lia|].
  exact (proj1 (list.Forall_forall _ _) HF m Hm').
Qed.

Lemma first_of_limit_1 {A} (l : list A) :
  (if (0 <? length (take 1 l))%nat then take 1 l !! 0%nat else None) = head l.
Proof. by destruct l. Qed.

Lemma QueryLast_eq (ch : EnvChoice) (uid : Z) (consistent_read : bool) (w : World) :
  QueryLast ch uid consistent_read w =
    match fault ch with
    | Some e => (inl e, logged (EvRangeQuery uid (Some 1%nat) false consistent_read) w)
    | None => (inr (last_row uid (visible consistent_read ch (table w))),
               logged (EvRangeQuery uid (Some 1%nat) false consistent_read) w)
    end.
Proof.
  unfold QueryLast, RangeQuery, bind, log_event, raise, ret, logged, last_row.
  destruct (fault ch); [done|]. cbn [table trace up_to].
  by rewrite first_of_limit_1.
Qed.

(** ** One iteration of the allocation loop *)

Section Allocation.

Context {Payload : Type}.
Variable json_dumps : Payload -> Exception + string.

Lemma candidate_fields (c : Call.t Payload) (last : option Notification)
    (n : Notification) :
  candidate json_dumps c last = inr n ->
  user_id n = Call.user_id c /\
  notification_id n = (next_id_badge last).1 /\
  badge n = (next_id_badge last).2 + increment c /\
  update_seq n = (seq_nums (Call.operation c) (Call.user_id c) (Call.seq_num_pair c)).1 /\
  viewed_seq n = (seq_nums (Call.operation c) (Call.user_id c) (Call.seq_num_pair c)).2.
Proof.
  unfold candidate, SetInvalidate, increment.
  destruct (next_id_badge last) as [i b].
  destruct (seq_nums _ _ _) as [u v].
  destruct (Call.invalidate c) as [d|].
  - destruct (json_dumps d); [done|]. intros [= <-]. simpl.
    by destruct (Call.inc_badge c); rewrite ?Z.add_0_r.
  - intros [= <-]. simpl. by destruct (Call.inc_badge c); rewrite ?Z.add_0_r.
Qed.

Lemma candidate_encodable (c : Call.t Payload) (last : option Notification) :
  encodable json_dumps c -> exists n, candidate json_dumps c last = inr n.
Proof.
  unfold encodable, candidate, SetInvalidate.
  destruct (next_id_badge last) as [i b].
  destruct (seq_nums _ _ _) as [u v].
  destruct (Call.invalidate c) as [d|]; [|eauto].
  intros [text ->]. eauto.
Qed.

Lemma candidate_raises (c : Call.t Payload) (last : option Notification)
    (e : Exception) :
  candidate json_dumps c last = inl e ->
  exists invalidate_dict,
    Call.invalidate c = Some invalidate_dict /\ json_dumps invalidate_dict = inl e.
Proof.
  unfold candidate, SetInvalidate.
  destruct (next_id_badge last) as [i b].
  destruct (seq_nums _ _ _) as [u v].
  destruct (Call.invalidate c) as [d|]; [|done].
  destruct (json_dumps d) eqn:E; [|done]. intros [= <-]. eauto.
Qed.

Lemma CreateForUser_S (fuel : nat) (env : nat -> EnvChoice) (c : Call.t Payload)
    (consistent_read : bool) (w : World) :
  CreateForUser json_dumps (S fuel) env c consistent_read w =
    match QueryLast (env 0%nat) (Call.user_id c) consistent_read w with
    | (inl e, w1) => (inl e, w1)
    | (inr last, w1) =>
        match candidate json_dumps c last with
        | inl e => (inl e, w1)
        | inr n =>
            if creates (env 1%nat) n (table w1) then (inr (Some n), committed n w1)
            else CreateForUser json_dumps fuel (fun i => env (2 + i)%nat) c true
                   (logged (update_event n) w1)
        end
    end.
Proof.
  cbn [CreateForUser]. unfold bind at 1.
  destruct (QueryLast _ _ _ w) as [[e|last] w1]; [done|].
  unfold bind at 1, lift. destruct (candidate json_dumps c last) as [e|n]; [done|].
  unfold bind at 1. rewrite TryUpdate_eq.
  by destruct (creates _ n (table w1)).
Qed.

Lemma step_query (ch : EnvChoice) (c : Call.t Payload) (consistent_read : bool)
    (w : World) :
  step_task json_dumps ch (CreateForUser_query c consistent_read) w =
    match QueryLast ch (Call.user_id c) consistent_read w with
    | (inl e, w1) => (Finished (Raised e), w1)
    | (inr last, w1) =>
        match candidate json_dumps c last with
        | inl e => (Finished (Raised e), w1)
        | inr n => (CreateForUser_write c consistent_read n, w1)
        end
    end.
Proof.
  cbn [step_task]. unfold bind, lift.
  destruct (QueryLast _ _ _ w) as [[e|last] w1]; [done|].
  by destruct (candidate json_dumps c last).
Qed.

Lemma step_write (ch : EnvChoice) (c : Call.t Payload) (consistent_read : bool)
    (n : Notification) (w : World) :
  step_task json_dumps ch (CreateForUser_write c consistent_read n) w =
    if creates ch n (table w) then (Finished (RetNotification n), committed n w)
    else (CreateForUser_query c true, logged (update_event n) w).
Proof.
  cbn [step_task]. rewrite TryUpdate_eq.
  by destruct (creates ch n (table w)).
Qed.

Lemma step_clear (ch : EnvChoice) (n : Notification) (w : World) :
  step_task json_dumps ch (TryClearBadge_write n) w =
    if creates ch n (table w) then (Finished (RetBool true), committed n w)
    else (Finished (RetBool false), logged (update_event n) w).
Proof.
  cbn [step_task]. rewrite TryUpdate_eq.
  by destruct (creates ch n (table w)).
Qed.

(** *** The loop called on its own *)

Lemma creates_true (ch : EnvChoice) (n : Notification) (rows : list Notification) :
  creates ch n rows = true <-> fault ch = None /\ key n ∉ (key <$> rows).
Proof.
  unfold creates. rewrite <- stored_None.
  destruct (fault ch), (stored (key n) rows); split; (done || intros [? ?]; done).
Qed.

Lemma CreateForUser_returns (fuel : nat) (env : nat -> EnvChoice) (c : Call.t Payload)
    (consistent_read : bool) (w w' : World) (n : Notification) :
  CreateForUser json_dumps fuel env c consistent_read w = (inr (Some n), w') ->
  (exists last, candidate json_dumps c last = inr n) /\
  (key n ∉ (key <$> table w)) /\
  table w' = n :: table w.
Proof.
  revert env consistent_read w.
  induction fuel as [|fuel IH]; intros env cr w; [done|].
  rewrite CreateForUser_S, QueryLast_eq.
  destruct (fault (env 0%nat)); [done|].
  destruct (candidate json_dumps c _) as [e|n0] eqn:Hc; [done|].
  destruct (creates (env 1%nat) n0 _) eqn:Hw.
  - intros [= <- <-]. apply creates_true in Hw as [_ Hw]. eauto.
  - intros H. by apply IH in H.
Qed.

Lemma CreateForUser_raises (fuel : nat) (env : nat -> EnvChoice) (c : Call.t Payload)
    (consistent_read : bool) (w w' : World) (e : Exception) :
  CreateForUser json_dumps fuel env c consistent_read w = (inl e, w') ->
  table w' = table w /\
  ((exists i, Nat.even i = true /\ fault (env i) = Some e) \/
   (exists invalidate_dict,
      Call.invalidate c = Some invalidate_dict /\ json_dumps invalidate_dict = inl e)).
Proof.
  revert env consistent_read w.
  induction fuel as [|fuel IH]; intros env cr w; [done|].
  rewrite CreateForUser_S, QueryLast_eq.
  destruct (fault (env 0%nat)) as [e0|] eqn:Hf.
  { intros [= <- <-]. split; [done|]. left. by exists 0%nat. }
  destruct (candidate json_dumps c _) as [e1|n0] eqn:Hc.
  { intros [= <- <-]. split; [done|]. right. by eapply candidate_raises. }
  destruct (creates (env 1%nat) n0 _) eqn:Hw; [done|].
  intros H. apply IH in H as [Ht [(i & Hi & He)|Hd]]; (split; [done|]).
  - left. exists (2 + i)%nat. split; [|done]. by rewrite Nat.even_add, Hi.
  - by right.
Qed.

Lemma fresh_after_last (uid : Z) (rows : list Notification) (n : Notification) :
  user_id n = uid ->
  notification_id n = (next_id_badge (last_row uid rows)).1 ->
  key n ∉ (key <$> rows).
Proof.
  intros Hu Hi Hin. apply list_elem_of_fmap in Hin as (m & Hk & Hm).
  unfold key in Hk. injection Hk as Hku Hki.
  destruct (last_row uid rows) as [r|] eqn:Hl.
  - apply last_row_Some in Hl as (_ & _ & Hmax). simpl in Hi.
    assert (notification_id m <= notification_id r) by (apply Hmax; congruence).
    lia.
  - apply last_row_None in Hl.
    assert (Hf : m ∈ partition_of uid rows)
      by (apply list_elem_of_filter; split; [congruence|done]).
    rewrite Hl in Hf. by apply elem_of_nil in Hf.
Qed.

Lemma CreateForUser_quiescent (env : nat -> EnvChoice) (c : Call.t Payload)
    (consistent_read : bool) (w : World) :
  fault_free env -> encodable json_dumps c ->
  exists n w',
    CreateForUser json_dumps 2 env c consistent_read w = (inr (Some n), w') /\
    table w' = n :: table w.
Proof.
  intros Henv Henc.
  rewrite CreateForUser_S, QueryLast_eq, Henv.
  destruct (candidate_encodable c
              (last_row (Call.user_id c) (visible consistent_read (env 0%nat) (table w)))
              Henc) as [n0 Hn0].
  rewrite Hn0. destruct (creates (env 1%nat) n0 _) eqn:Hw; [by eauto|].
  rewrite CreateForUser_S, QueryLast_eq, Henv. cbn [visible logged table].
  destruct (candidate_encodable c (last_row (Call.user_id c) (table w)) Henc)
    as [n1 Hn1].
  rewrite Hn1.
  assert (Hfree : creates (env 3%nat) n1 (table w) = true).
  { apply creates_true. split; [apply Henv|].
    apply candidate_fields in Hn1 as (Hu & Hi & _).
    by eapply fresh_after_last. }
  cbn [Nat.add]. rewrite Hfree. eauto.
Qed.

(** *** The loop as a task *)

Lemma run_task_finished (k : nat) (env : nat -> EnvChoice) (r : Result) (w : World) :
  run_task json_dumps k env (Finished r) w = (Finished r, w).
Proof. revert env. induction k as [|k IH]; intros env; [done|]. simpl. apply IH. Qed.

Lemma run_task_add (a b : nat) (env : nat -> EnvChoice) (t : Task Payload) (w : World) :
  run_task json_dumps (a + b) env t w =
    let '(t', w') := run_task json_dumps a env t w in
    run_task json_dumps b (fun i => env (a + i)%nat) t' w'.
Proof.
  revert env t w. induction a as [|a IH]; intros env t w; [done|].
  cbn [Nat.add run_task].
  destruct (step_task json_dumps (env 0%nat) t w) as [t1 w1].
  by rewrite IH.
Qed.

Lemma run_task_loop (fuel : nat) (env : nat -> EnvChoice) (c : Call.t Payload)
    (consistent_read : bool) (w : World) :
  run_task json_dumps (2 * fuel) env (CreateForUser_query c consistent_read) w =
    match CreateForUser json_dumps fuel env c consistent_read w with
    | (inr (Some n), w') => (Finished (RetNotification n), w')
    | (inr None, w') =>
        (CreateForUser_query c (match fuel with O => consistent_read | _ => true end), w')
    | (inl e, w') => (Finished (Raised e), w')
    end.
Proof.
  revert env consistent_read w.
  induction fuel as [|fuel IH]; intros env cr w; [done|].
  replace (2 * S fuel)%nat with (S (S (2 * fuel))) by lia.
  rewrite CreateForUser_S. cbn [run_task]. rewrite step_query.
  change (fun i => env (2 + i)%nat) with (fun i => env (S (S i))).
  destruct (QueryLast _ _ _ w) as [[e|last] w1].
  { cbn [step_task]. by rewrite run_task_finished. }
  destruct (candidate json_dumps c last) as [e|n].
  { cbn [step_task]. by rewrite run_task_finished. }
  rewrite step_write.
  destruct (creates (env 1%nat) n (table w1)).
  { by rewrite run_task_finished. }
  rewrite (IH (fun i => env (S (S i))) true).
  destruct (CreateForUser json_dumps fuel _ c true _) as [[e|[m|]] w2]; try done.
  by destruct fuel.
Qed.

(** *** Pools of calls *)

Lemma step_task_table (ch : EnvChoice) (t t' : Task Payload) (w w' : World) :
  step_task json_dumps ch t w = (t', w') ->
  (table w' = table w /\ returned_row t' = returned_row t) \/
  (exists n, table w' = n :: table w /\ (key n ∉ (key <$> table w)) /\
             returned_row t = None /\
             (returned_row t' = Some n \/ returned_row t' = None)).
Proof.
  destruct t as [c cr|c cr n|n|r].
  - rewrite step_query, QueryLast_eq.
    destruct (fault ch); [intros [= <- <-]; by left|].
    destruct (candidate json_dumps c _); intros [= <- <-]; by left.
  - rewrite step_write. destruct (creates ch n (table w)) eqn:Hw; intros [= <- <-].
    + apply creates_true in Hw as [_ Hw]. right. exists n. simpl. eauto.
    + by left.
  - rewrite step_clear. destruct (creates ch n (table w)) eqn:Hw; intros [= <- <-].
    + apply creates_true in Hw as [_ Hw]. right. exists n. simpl. eauto.
    + by left.
  - intros [= <- <-]. by left.
Qed.

Lemma returned_insert_same (ts : list (Task Payload)) (i : nat) (t t' : Task Payload) :
  ts !! i = Some t -> returned_row t' = returned_row t ->
  returned (<[i:=t']> ts) = returned ts.
Proof.
  intros Hi Hr. unfold returned.
  rewrite insert_take_drop by (by eapply lookup_lt_Some).
  rewrite <- (take_drop_middle ts i t Hi) at 3.
  rewrite !omap_app. simpl. by rewrite Hr.
Qed.

Lemma returned_insert_new (ts : list (Task Payload)) (i : nat) (t t' : Task Payload)
    (n : Notification) :
  ts !! i = Some t -> returned_row t = None -> returned_row t' = Some n ->
  returned (<[i:=t']> ts) ≡ₚ n :: returned ts.
Proof.
  intros Hi Hr Hr'. unfold returned.
  rewrite insert_take_drop by (by eapply lookup_lt_Some).
  rewrite <- (take_drop_middle ts i t Hi) at 3.
  rewrite !omap_app. simpl. rewrite Hr, Hr'.
  by rewrite Permutation_middle.
Qed.

Lemma sched_step_consistent (s : System) (l : nat * EnvChoice) :
  consistent s -> consistent (sched_step json_dumps s l).
Proof.
  intros (Ht & Hr & Hsub). unfold sched_step.
  destruct (pool s !! l.1) as [t|] eqn:Hi; [|done].
  destruct (step_task json_dumps l.2 t (world s)) as [t' w'] eqn:Hs.
  apply step_task_table in Hs as [[Htab Hsame]|(n & Htab & Hfresh & Hnone & Hnew)].
  - unfold consistent. cbn [pool world].
    rewrite Htab, (returned_insert_same _ _ t) by done. done.
  - unfold consistent. cbn [pool world]. rewrite Htab.
    assert (Ht' : NoDup (key <$> n :: table (world s))).
    { rewrite fmap_cons. by apply NoDup_cons_2. }
    destruct Hnew as [Hsome|Hnone'].
    + pose proof (returned_insert_new _ _ _ _ _ Hi Hnone Hsome) as HP.
      split; [done|]. split.
      * rewrite HP, fmap_cons. apply NoDup_cons_2; [|done].
        intros Hin. apply list_elem_of_fmap in Hin as (m & Hk & Hm).
        apply Hfresh. rewrite Hk. by apply Hsub.
      * intros m Hm. rewrite HP in Hm. rewrite fmap_cons.
        apply elem_of_cons in Hm as [->|Hm]; [left|right; by apply Hsub].
    + rewrite (returned_insert_same _ _ t) by congruence.
      split; [done|]. split; [done|].
      intros m Hm. rewrite fmap_cons. right. by apply Hsub.
Qed.

Lemma run_consistent (schedule : list (nat * EnvChoice)) (s : System) :
  consistent s -> consistent (run json_dumps schedule s).
Proof.
  unfold run. revert s.
  induction schedule as [|l schedule IH]; intros s Hs; [done|].
  simpl. by apply IH, sched_step_consistent.
Qed.

Lemma step_task_trace (ch : EnvChoice) (t t' : Task Payload) (w w' : World) :
  step_task json_dumps ch t w = (t', w') ->
  exists evs, trace w' = evs ++ trace w /\ Forall conditional_create evs.
Proof.
  destruct t as [c cr|c cr n|n|r].
  - rewrite step_query, QueryLast_eq.
    destruct (fault ch); [intros [= <- <-]|
      destruct (candidate json_dumps c _); intros [= <- <-]];
      by exists [EvRangeQuery (Call.user_id c) (Some 1%nat) false cr]; repeat constructor.
  - rewrite step_write. destruct (creates ch n (table w)); intros [= <- <-];
      by exists [update_event n]; repeat constructor.
  - rewrite step_clear. destruct (creates ch n (table w)); intros [= <- <-];
      by exists [update_event n]; repeat constructor.
  - intros [= <- <-]. by exists [].
Qed.

Lemma run_grows (schedule : list (nat * EnvChoice)) (s : System) :
  table (world s) `suffix_of` table (world (run json_dumps schedule s)) /\
  exists evs, trace (world (run json_dumps schedule s)) = evs ++ trace (world s) /\
              Forall conditional_create evs.
Proof.
  unfold run. revert s.
  induction schedule as [|l schedule IH]; intros s.
  { split; [done|]. by exists []. }
  simpl. destruct (IH (sched_step json_dumps s l)) as (Hsuf & evs & Htr & Hev).
  assert (Hstep : table (world s) `suffix_of` table (world (sched_step json_dumps s l)) /\
            exists evs0, trace (world (sched_step json_dumps s l)) = evs0 ++ trace (world s) /\
                         Forall conditional_create evs0).
  { unfold sched_step. destruct (pool s !! l.1) as [t|]; [|split; [done|by exists []]].
    destruct (step_task json_dumps l.2 t (world s)) as [t' w'] eqn:Hs. cbn [world].
    split; [|by eapply step_task_trace].
    apply step_task_table in Hs as [[-> _]|(n & -> & _)]; [done|].
    by apply suffix_cons_r. }
  destruct Hstep as (Hsuf0 & evs0 & Htr0 & Hev0). split.
  - by etrans.
  - exists (evs ++ evs0). rewrite Htr, Htr0, app_assoc. split; [done|].
    by apply Forall_app.
Qed.

Lemma ids_of_NoDup (uid : Z) (rows : list Notification) :
  NoDup (key <$> rows) -> NoDup (ids_of uid rows).
Proof.
  unfold ids_of. induction rows as [|n rows IH]; [constructor|].
  rewrite fmap_cons. intros [Hn Hrows]%NoDup_cons.
  rewrite filter_cons. destruct (decide (user_id n = uid)) as [Hu|Hu]; [|by apply IH].
  rewrite fmap_cons. apply NoDup_cons_2; [|by apply IH].
  intros Hin. apply list_elem_of_fmap in Hin as (m & Hid & Hm).
  apply list_elem_of_filter in Hm as [Hmu Hm].
  apply Hn, list_elem_of_fmap. exists m. split; [|done].
  unfold key. congruence.
Qed.

(** C1. At most one row is ever stored under a [(user_id, notification_id)]
    key.  Whatever calls a pool holds and however the scheduler interleaves
    them: the keys of the table stay distinct, the rows already stored stay as
    they are, every write issued is a create conditional on the id being
    absent, and the [CreateForUser] calls that have returned for a user hold
    as many distinct ids as there are such calls. *)
Theorem C1_unique_ids (ts : list (Task Payload)) (w : World)
    (schedule : list (nat * EnvChoice)) (uid : Z) :
  NoDup (key <$> table w) ->
  returned ts = [] ->
  let s := run json_dumps schedule {| pool := ts; world := w |} in
  NoDup (key <$> table (world s)) /\
  table w `suffix_of` table (world s) /\
  (exists evs, trace (world s) = evs ++ trace w /\ Forall conditional_create evs) /\
  NoDup (ids_of uid (returned (pool s))) /\
  size (list_to_set (ids_of uid (returned (pool s))) : gset Z)
    = length (filter (fun n => user_id n = uid) (returned (pool s))).
Proof.
  intros Hw Hts s.
  assert (Hc : consistent s).
  { apply run_consistent. unfold consistent. cbn [pool world]. rewrite Hts.
    split; [done|]. split; [constructor|]. intros n Hn. by apply elem_of_nil in Hn. }
  destruct Hc as (Ht & Hr & _).
  destruct (run_grows schedule {| pool := ts; world := w |}) as (Hsuf & Hev).
  split; [done|]. split; [done|]. split; [done|].
  pose proof (ids_of_NoDup uid _ Hr) as Hids. split; [done|].
  rewrite size_list_to_set by done. unfold ids_of. by rewrite length_fmap.
Qed.

(** C2. In every iteration of [CreateForUser]: when [QueryLast] returns no row
    the candidate gets id 1 and the carried badge is 0; otherwise the candidate
    gets the id of the last row plus 1 and the carried badge is the badge of
    the last row.  The carried badge is what the candidate's badge is before
    the requested increment.  An iteration builds its candidate whenever the
    query is answered and the payload can be encoded. *)
Theorem C2_next_id_and_carried_badge (ch : EnvChoice) (c : Call.t Payload)
    (consistent_read : bool) (w : World) :
  (forall (last : option Notification) (n : Notification) (w1 w2 : World),
     QueryLast ch (Call.user_id c) consistent_read w = (inr last, w1) ->
     step_task json_dumps ch (CreateForUser_query c consistent_read) w
       = (CreateForUser_write c consistent_read n, w2) ->
     next_id_badge last = (notification_id n, badge n - increment c) /\
     match last with
     | None => notification_id n = 1 /\ badge n - increment c = 0
     | Some l =>
         notification_id n = notification_id l + 1 /\
         badge n - increment c = badge l
     end) /\
  (fault ch = None -> encodable json_dumps c ->
   exists last n w1,
     QueryLast ch (Call.user_id c) consistent_read w = (inr last, w1) /\
     step_task json_dumps ch (CreateForUser_query c consistent_read) w
       = (CreateForUser_write c consistent_read n, w1)).
Proof.
  split.
  - intros last n w1 w2 Hq. rewrite step_query, Hq.
    destruct (candidate json_dumps c last) as [e|n0] eqn:Hc; [done|].
    intros [= <- <-]. apply candidate_fields in Hc as (_ & Hi & Hb & _).
    destruct (next_id_badge last) as [i b] eqn:Hnext. simpl in Hi, Hb. subst.
    split; [f_equal; lia|].
    destruct last as [l|]; simpl in Hnext; injection Hnext as <- <-; lia.
  - intros Hf Henc. rewrite step_query, QueryLast_eq, Hf.
    destruct (candidate_encodable c
                (last_row (Call.user_id c) (visible consistent_read ch (table w)))
                Henc) as [n Hn].
    rewrite Hn. by eexists _, n, _.
Qed.

Lemma partition_of_drop (uid : Z) (k : nat) (rows : list Notification) :
  partition_of uid rows = [] -> partition_of uid (drop k rows) = [].
Proof.
  intros H. apply filter_none. intros m Hm Hu.
  assert (Hf : m ∈ partition_of uid rows).
  { apply list_elem_of_filter. split; [done|].
    by eapply (subseteq_drop k rows). }
  rewrite H in Hf. by apply elem_of_nil in Hf.
Qed.

Lemma partition_of_visible (uid : Z) (consistent_read : bool) (ch : EnvChoice)
    (rows : list Notification) :
  partition_of uid rows = [] ->
  partition_of uid (visible consistent_read ch rows) = [].
Proof.
  unfold visible. destruct consistent_read; [done|]. apply partition_of_drop.
Qed.






Lemma candidate_viewed_seq (c : Call.t Payload) (last : option Notification)
    (n : Notification) :
  candidate json_dumps c last = inr n -> viewed_seq n = viewed_seq_of c.
Proof.
  intros (_ & _ & _ & _ & Hv)%candidate_fields. rewrite Hv.
  unfold seq_nums, viewed_seq_of.
  by destruct (Call.seq_num_pair c) as [[u [v|]]|].
Qed.

(** C4. The row that [CreateForUser] commits has [viewed_seq] set only when
    the user of the operation is the user the row is created for; when they
    differ it is left unset whatever [seq_num_pair] holds.  The same is true
    of the candidate of every iteration, and a call left alone with a store
    that answers does commit such a row. *)
Theorem C4_viewed_seq_only_for_own_user (c : Call.t Payload) :
  (forall (last : option Notification) (n : Notification),
     candidate json_dumps c last = inr n ->
     viewed_seq n = viewed_seq_of c) /\
  (forall (fuel : nat) (env : nat -> EnvChoice) (consistent_read : bool)
          (w w' : World) (n : Notification),
     CreateForUser json_dumps fuel env c consistent_read w = (inr (Some n), w') ->
     (is_Some (viewed_seq n) ->
      Operation.user_id (Call.operation c) = Call.user_id c) /\
     (Operation.user_id (Call.operation c) <> Call.user_id c ->
      viewed_seq n = None)) /\
  (forall (env : nat -> EnvChoice) (consistent_read : bool) (w : World),
     fault_free env -> encodable json_dumps c ->
     exists n w',
       CreateForUser json_dumps 2 env c consistent_read w = (inr (Some n), w') /\
       viewed_seq n = viewed_seq_of c).
Proof.
  split; [apply candidate_viewed_seq|]. split; cycle 1.
  { intros env cr w Henv Henc.
    destruct (CreateForUser_quiescent env c cr w Henv Henc) as (n & w' & Hrun & _).
    exists n, w'. split; [done|].
    apply CreateForUser_returns in Hrun as ([last Hc] & _).
    by eapply candidate_viewed_seq. }
  intros fuel env cr w w' n ([last Hc] & _)%CreateForUser_returns.
  rewrite (candidate_viewed_seq c last n Hc). unfold viewed_seq_of.
  destruct (Call.seq_num_pair c) as [[u [v|]]|];
    try (split; [by intros [? [=]]|done]).
  destruct (decide _) as [Heq|Hne]; split; try done.
Qed.

(** C10. Whenever [seq_num_pair] is given, its [update_seq] component is
    stored on the row, whether or not the user of the operation is the user
    the row is created for; whenever it is not given, neither [update_seq] nor
    [viewed_seq] is set.  This holds of the candidate of every iteration and
    so of the row a call commits, which a call left alone with a store that
    answers does. *)
Theorem C10_update_seq_unconditional (c : Call.t Payload) :
  (forall (last : option Notification) (n : Notification),
     candidate json_dumps c last = inr n ->
     match Call.seq_num_pair c with
     | Some (update_seq', _) => update_seq n = update_seq'
     | None => update_seq n = None /\ viewed_seq n = None
     end) /\
  (forall (fuel : nat) (env : nat -> EnvChoice) (consistent_read : bool)
          (w w' : World) (n : Notification),
     CreateForUser json_dumps fuel env c consistent_read w = (inr (Some n), w') ->
     match Call.seq_num_pair c with
     | Some (update_seq', _) => update_seq n = update_seq'
     | None => update_seq n = None /\ viewed_seq n = None
     end) /\
  (forall (env : nat -> EnvChoice) (consistent_read : bool) (w : World),
     fault_free env -> encodable json_dumps c ->
     exists n w',
       CreateForUser json_dumps 2 env c consistent_read w = (inr (Some n), w') /\
       match Call.seq_num_pair c with
       | Some (update_seq', _) => update_seq n = update_seq'
       | None => update_seq n = None /\ viewed_seq n = None
       end).
Proof.
  assert (Hcand : forall last n, candidate json_dumps c last = inr n ->
            match Call.seq_num_pair c with
            | Some (update_seq', _) => update_seq n = update_seq'
            | None => update_seq n = None /\ viewed_seq n = None
            end).
  { intros last n (_ & _ & _ & Hu & Hv)%candidate_fields. rewrite Hu, Hv.
    unfold seq_nums. by destruct (Call.seq_num_pair c) as [[u v]|]. }
  split; [done|]. split.
  - intros fuel env cr w w' n ([last Hc] & _)%CreateForUser_returns. by eapply Hcand.
  - intros env cr w Henv Henc.
    destruct (CreateForUser_quiescent env c cr w Henv Henc) as (n & w' & Hrun & _).
    exists n, w'. split; [done|].
    apply CreateForUser_returns in Hrun as ([last Hc] & _). by eapply Hcand.
Qed.

(** C8. When the conditional write of an iteration fails, with whatever error
    (the id is taken, or the store itself failed), [_TryUpdate] turns the error
    into [False]: nothing is raised to the caller and nothing is written, and
    the call goes back to its query step with [consistent_read] set. *)
Theorem C8_write_failure_retries_strongly (ch : EnvChoice) (c : Call.t Payload)
    (consistent_read : bool) (n : Notification) (w w1 : World) (e : Exception) :
  Update ch n (ExpectAbsent col_notification_id) w = (inl e, w1) ->
  (fault ch = Some e \/
   (fault ch = None /\ e = ConditionalCheckFailed /\ key n ∈ key <$> table w)) /\
  table w1 = table w /\
  _TryUpdate ch n w = (inr false, w1) /\
  step_task json_dumps ch (CreateForUser_write c consistent_read n) w
    = (CreateForUser_query c true, w1) /\
  forall (fuel : nat) (env : nat -> EnvChoice) (w0 : World)
         (last : option Notification),
    env 1%nat = ch ->
    QueryLast (env 0%nat) (Call.user_id c) consistent_read w0 = (inr last, w) ->
    candidate json_dumps c last = inr n ->
    CreateForUser json_dumps (S fuel) env c consistent_read w0
      = CreateForUser json_dumps fuel (fun i => env (2 + i)%nat) c true w1.
Proof.
  rewrite Update_absent. intros HU.
  assert (Hno : creates ch n (table w) = false /\ w1 = logged (update_event n) w /\
                (fault ch = Some e \/
                 (fault ch = None /\ e = ConditionalCheckFailed /\
                  key n ∈ key <$> table w))).
  { unfold creates. destruct (fault ch) as [e0|].
    - injection HU as <- <-. auto.
    - destruct (stored (key n) (table w)) as [m|] eqn:Hs; [|done].
      injection HU as <- <-. apply stored_Some in Hs as [Hm Hk].
      split; [done|]. split; [done|]. right. split; [done|]. split; [done|].
      rewrite <- Hk. apply list_elem_of_fmap. eauto. }
  destruct Hno as (Hno & -> & Hkind).
  split; [done|]. split; [done|].
  split; [by rewrite TryUpdate_eq, Hno|].
  split; [by rewrite step_write, Hno|].
  intros fuel env w0 last Hch Hq Hc. by rewrite CreateForUser_S, Hq, Hc, Hch, Hno.
Qed.

Lemma run_task_allocating (k : nat) (env : nat -> EnvChoice) (t : Task Payload)
    (w : World) :
  allocating t -> allocating (run_task json_dumps k env t w).1.
Proof.
  revert env t w. induction k as [|k IH]; intros env t w Ht; [done|].
  cbn [run_task].
  destruct (step_task json_dumps (env 0%nat) t w) as [t' w'] eqn:Hs.
  apply IH. destruct t as [c cr|c cr n|n|r].
  - rewrite step_query in Hs. destruct (QueryLast _ _ _ w) as [[e|last] w1].
    + by injection Hs as <- <-.
    + by destruct (candidate json_dumps c last); injection Hs as <- <-.
  - rewrite step_write in Hs.
    by destruct (creates _ n (table w)); injection Hs as <- <-.
  - done.
  - by injection Hs as <- <-.
Qed.

Lemma CreateForUser_pending (fuel : nat) (env : nat -> EnvChoice) (c : Call.t Payload)
    (consistent_read : bool) (w w' : World) :
  CreateForUser json_dumps fuel env c consistent_read w = (inr None, w') ->
  table w' = table w.
Proof.
  revert env consistent_read w.
  induction fuel as [|fuel IH]; intros env cr w; [by intros [= <-]|].
  rewrite CreateForUser_S, QueryLast_eq.
  destruct (fault (env 0%nat)); [done|].
  destruct (candidate json_dumps c _) as [e|n0]; [done|].
  destruct (creates (env 1%nat) n0 _); [done|].
  intros H. by apply IH in H.
Qed.

Lemma CreateForUser_outage (fuel : nat) (env : nat -> EnvChoice) (c : Call.t Payload)
    (consistent_read : bool) (w : World) :
  answering_reads env -> failing_writes env -> encodable json_dumps c ->
  exists w',
    CreateForUser json_dumps fuel env c consistent_read w = (inr None, w') /\
    table w' = table w.
Proof.
  intros Hr Hw Henc. revert env consistent_read w Hr Hw.
  induction fuel as [|fuel IH]; intros env cr w Hr Hw; [by exists w|].
  rewrite CreateForUser_S, QueryLast_eq, (Hr 0%nat) by done.
  destruct (candidate_encodable c
              (last_row (Call.user_id c) (visible cr (env 0%nat) (table w))) Henc)
    as [n Hn].
  rewrite Hn.
  assert (Hno : creates (env 1%nat) n
                  (table (logged (EvRangeQuery (Call.user_id c) (Some 1%nat) false cr) w))
                = false).
  { unfold creates. pose proof (Hw 1%nat eq_refl) as H1.
    by destruct (fault (env 1%nat)). }
  rewrite Hno.
  destruct (IH (fun i => env (2 + i)%nat) true
              (logged (update_event n)
                 (logged (EvRangeQuery (Call.user_id c) (Some 1%nat) false cr) w)))
    as (w' & Hrun & Htab).
  - intros i Hi. by apply Hr.
  - intros i Hi. by apply Hw.
  - by exists w'.
Qed.

(** C9, as the code has it.  A call that finishes returns the row that its own
    conditional write has just committed, or raises an error that came from
    the query or from encoding the payload; it never finishes with a failure
    value.  When the store does not fail and nobody else writes, it returns
    within two iterations.  When every one of its writes fails it is still
    retrying after any number of iterations, the table unchanged. *)
Theorem C9_returns_committed_row_or_raises (env : nat -> EnvChoice)
    (c : Call.t Payload) (consistent_read : bool) (w : World) :
  (forall fuel,
     match CreateForUser json_dumps fuel env c consistent_read w with
     | (inr (Some n), w') => table w' = n :: table w /\ key n ∉ (key <$> table w)
     | (inr None, w') => table w' = table w
     | (inl e, w') =>
         table w' = table w /\
         ((exists i, Nat.even i = true /\ fault (env i) = Some e) \/
          (exists invalidate_dict, Call.invalidate c = Some invalidate_dict /\
                                   json_dumps invalidate_dict = inl e))
     end) /\
  (forall k b,
     (run_task json_dumps k env (start_CreateForUser c consistent_read) w).1
       <> Finished (RetBool b)) /\
  (fault_free env -> encodable json_dumps c ->
   exists n w',
     CreateForUser json_dumps 2 env c consistent_read w = (inr (Some n), w') /\
     run_task json_dumps 4 env (start_CreateForUser c consistent_read) w
       = (Finished (RetNotification n), w') /\
     table w' = n :: table w) /\
  (answering_reads env -> failing_writes env -> encodable json_dumps c ->
   forall fuel, exists w',
     CreateForUser json_dumps fuel env c consistent_read w = (inr None, w') /\
     table w' = table w).
Proof.
  split; [|split; [|split]]; [| | |intros; by apply CreateForUser_outage].
  - intros fuel.
    destruct (CreateForUser json_dumps fuel env c consistent_read w)
      as [[e|[n|]] w'] eqn:Hrun.
    + by eapply CreateForUser_raises.
    + apply CreateForUser_returns in Hrun as (_ & ? & ?). done.
    + by eapply CreateForUser_pending.
  - intros k b Hb.
    pose proof (run_task_allocating k env (start_CreateForUser c consistent_read) w I)
      as Ha.
    by rewrite Hb in Ha.
  - intros Henv Henc.
    destruct (CreateForUser_quiescent env c consistent_read w Henv Henc)
      as (n & w' & Hrun & Htab).
    exists n, w'. split; [done|]. split; [|done].
    unfold start_CreateForUser. change 4%nat with (2 * 2)%nat.
    by rewrite (run_task_loop 2 env c consistent_read w), Hrun.
Qed.

End Allocation.

(** ** Reading the last row, clearing the badge *)

Lemma visible_fresh (consistent_read : bool) (ch : EnvChoice)
    (rows : list Notification) :
  consistent_read = true \/ lag ch = 0%nat -> visible consistent_read ch rows = rows.
Proof. unfold visible. intros [->| ->]; [done|]. by destruct consistent_read. Qed.

(** C5. [QueryLast] is one descending scan of the user's partition, limited
    to one row: it returns the first row of that scan, leaves the table as it
    is, and returns no row for a user without rows.  Once rows with the ids 1,
    2 and 3 are stored for the user, in whatever order they went in, a read
    that sees them all (a strongly consistent one, or one that misses nothing)
    returns the row with id 3. *)
Theorem C5_QueryLast_is_descending_limit_1 (ch : EnvChoice) (uid : Z)
    (consistent_read : bool) (w : World) :
  QueryLast ch uid consistent_read w =
    match RangeQuery ch uid (Some 1%nat) false consistent_read w with
    | (inr notification_list, w') => (inr (head notification_list), w')
    | (inl e, w') => (inl e, w')
    end /\
  (QueryLast ch uid consistent_read w).2
    = logged (EvRangeQuery uid (Some 1%nat) false consistent_read) w /\
  table (QueryLast ch uid consistent_read w).2 = table w /\
  (fault ch = None -> partition_of uid (table w) = [] ->
   (QueryLast ch uid consistent_read w).1 = inr None) /\
  (fault ch = None -> consistent_read = true \/ lag ch = 0%nat ->
   ids_of uid (table w) ≡ₚ [1; 2; 3] ->
   exists r, (QueryLast ch uid consistent_read w).1 = inr (Some r) /\
             r ∈ table w /\ user_id r = uid /\ notification_id r = 3).
Proof.
  split; [|split; [|split; [|split]]].
  - unfold QueryLast, bind, ret.
    destruct (RangeQuery ch uid (Some 1%nat) false consistent_read w)
      as [[e|l] w']; [done|].
    by destruct l.
  - rewrite QueryLast_eq. by destruct (fault ch).
  - rewrite QueryLast_eq. by destruct (fault ch).
  - intros Hf Hempty. rewrite QueryLast_eq, Hf. cbn [fst]. f_equal.
    by apply last_row_None, partition_of_visible.
  - intros Hf Hsees Hids. rewrite QueryLast_eq, Hf, visible_fresh by done. cbn [fst].
    destruct (last_row uid (table w)) as [r|] eqn:Hl.
    + exists r. split; [done|].
      pose proof Hl as (Hr & Hu & Hmax)%last_row_Some.
      split; [done|]. split; [done|].
      assert (H3 : 3 ∈ ids_of uid (table w))
        by (rewrite Hids, !elem_of_cons; auto).
      apply list_elem_of_fmap in H3 as (m & Hm3 & Hm).
      apply list_elem_of_filter in Hm as [Hmu Hm].
      assert (Hle : notification_id m <= notification_id r) by by apply Hmax.
      assert (Hin : notification_id r ∈ ids_of uid (table w)).
      { apply list_elem_of_fmap. exists r. split; [done|].
        by apply list_elem_of_filter. }
      rewrite Hids, !elem_of_cons, elem_of_nil in Hin. lia.
    + apply last_row_None in Hl. unfold ids_of in Hids.
      fold (partition_of uid (table w)) in Hids. rewrite Hl in Hids.
      by apply Permutation_nil_l in Hids.
Qed.

(** C7. [TryClearBadge] builds a row named [clear_badges] with badge 0 under
    the id it is given and issues one conditional create, without retrying.
    It returns [True] exactly when that create went through, in which case the
    row is the newest of the table, and [False] with the table unchanged
    otherwise, in particular when the id was taken.  Of two calls for the same
    user and id, on a free id and with the store answering the first, the
    first returns [True], the second [False], and one row is stored under the
    id afterwards. *)
Theorem C7_TryClearBadge_once (ch : EnvChoice) (now uid device_id nid : Z)
    (w : World) :
  let row := clear_badges_row now uid device_id nid in
  name row = "clear_badges" /\ badge row = 0 /\ key row = (uid, nid) /\
  (exists b w',
     TryClearBadge ch now uid device_id nid w = (inr b, w') /\
     trace w' = update_event row :: trace w /\
     (b = true <-> fault ch = None /\ (uid, nid) ∉ (key <$> table w)) /\
     table w' = (if b then row :: table w else table w)) /\
  (forall (ch2 : EnvChoice) (now2 device_id2 : Z),
     fault ch = None -> (uid, nid) ∉ (key <$> table w) ->
     exists w1 w2,
       TryClearBadge ch now uid device_id nid w = (inr true, w1) /\
       TryClearBadge ch2 now2 uid device_id2 nid w1 = (inr false, w2) /\
       length (filter (fun m => key m = (uid, nid)) (table w2)) = 1%nat).
Proof.
  intros row. split; [done|]. split; [done|]. split; [done|].
  assert (Hrun : forall ch' now' did' w',
            TryClearBadge ch' now' uid did' nid w' =
              _TryUpdate ch' (clear_badges_row now' uid did' nid) w').
  { intros. unfold TryClearBadge, bind, ret.
    by destruct (_TryUpdate _ _ _) as [[e|b] w1]. }
  split.
  - rewrite Hrun, TryUpdate_eq. fold row.
    destruct (creates ch row (table w)) eqn:Hw.
    + exists true. eexists. split; [done|]. split; [done|]. split; [|done].
      apply creates_true in Hw. by split.
    + exists false. eexists. split; [done|]. split; [done|]. split; [|done].
      split; [done|]. intros Hok. apply (creates_true ch row (table w)) in Hok.
      congruence.
  - intros ch2 now2 did2 Hf Hfree.
    assert (Hw : creates ch row (table w) = true) by by apply creates_true.
    assert (Hw2 : creates ch2 (clear_badges_row now2 uid did2 nid)
                    (table (committed row w)) = false).
    { apply not_true_is_false. intros [_ Hfree2]%creates_true. apply Hfree2.
      cbn [committed table]. rewrite fmap_cons. by left. }
    exists (committed row w).
    exists (logged (update_event (clear_badges_row now2 uid did2 nid)) (committed row w)).
    split; [by rewrite Hrun, TryUpdate_eq; fold row; rewrite Hw|].
    split; [by rewrite Hrun, TryUpdate_eq, Hw2|].
    cbn [logged committed table].
    rewrite filter_cons_True by done.
    rewrite filter_none; [done|].
    intros m Hm Hk. apply Hfree. rewrite <- Hk. apply list_elem_of_fmap. eauto.
Qed.

(** ** The invalidation payload *)

Section RoundTrip.

Context {Payload : Type}.
Variable json_dumps : Payload -> Exception + string.


End RoundTrip.

(** ** The JSON model reads back what it writes *)

Module JsonFacts.
Import Json.

Lemma parse_print_char (c : ascii) (rest : list ascii) :
  parse_chars (print_char c ++ rest) =
    match parse_chars rest with
    | Some (cs, rest') => Some (c :: cs, rest')
    | None => None
    end.
Proof. destruct c as [[] [] [] [] [] [] [] []]; reflexivity. Qed.

Lemma parse_print_chars (cs rest : list ascii) :
  parse_chars (flat_map print_char cs ++ "034"%char :: rest) = Some (cs, rest).
Proof.
  induction cs as [|c cs IH]; [done|].
  simpl. rewrite <- app_assoc, parse_print_char. by rewrite IH.
Qed.

Lemma parse_print_uint (d : Decimal.uint) (rest : list ascii) :
  no_digit rest -> parse_uint (print_uint d ++ rest) = (d, rest).
Proof.
  intros Hrest. induction d as [|d IH|d IH|d IH|d IH|d IH|d IH|d IH|d IH|d IH|d IH];
    try (simpl; by rewrite IH).
  simpl. destruct rest as [|c rest]; [done|]. simpl in Hrest. simpl. by rewrite Hrest.
Qed.

Lemma print_uint_head (d : Decimal.uint) :
  d <> Decimal.Nil ->
  exists c tl, print_uint d = c :: tl /\ is_Some (digit c).
Proof. destruct d; [done|..]; intros _; eexists _, _; (split; [reflexivity|]); by eexists. Qed.

Lemma integer_digits_unorm (d : Decimal.uint) : integer_digits (Decimal.unorm d) = true.
Proof. induction d; try reflexivity. exact IHd. Qed.

Lemma integer_digits_to_uint (p : positive) : integer_digits (Pos.to_uint p) = true.
Proof.
  pose proof (Unsigned.to_of (Pos.to_uint p)) as H.
  rewrite Unsigned.of_to in H. simpl in H. rewrite H. apply integer_digits_unorm.
Qed.

Lemma integer_digits_nonnil (u : Decimal.uint) : integer_digits u = true -> u <> Decimal.Nil.
Proof. by destruct u. Qed.

Lemma to_int_cases (z : Z) :
  exists u, integer_digits u = true /\
            (Z.to_int z = Decimal.Pos u \/ Z.to_int z = Decimal.Neg u).
Proof.
  destruct z as [|p|p]; simpl.
  - exists (Decimal.D0 Decimal.Nil). split; [done|by left].
  - exists (Pos.to_uint p). split; [apply integer_digits_to_uint|by left].
  - exists (Pos.to_uint p). split; [apply integer_digits_to_uint|by right].
Qed.

Lemma digit_not_minus (c : ascii) : is_Some (digit c) -> Ascii.eqb c "-" = false.
Proof. destruct c as [[] [] [] [] [] [] [] []]; try reflexivity; by intros [? [=]]. Qed.

Lemma parse_print_int (z : Z) (rest : list ascii) :
  no_digit rest -> parse_int (print_int (Z.to_int z) ++ rest) = Some (z, rest).
Proof.
  intros Hrest. pose proof (DecimalZ.of_to z) as Hz.
  destruct (to_int_cases z) as (u & Hu & [E|E]); rewrite E in *; simpl.
  - destruct (print_uint_head u (integer_digits_nonnil u Hu)) as (c & tl & Hp & Hc).
    pose proof (parse_print_uint u rest Hrest) as HP. rewrite Hp in HP |- *.
    cbn [app parse_int]. rewrite (digit_not_minus c Hc).
    change (c :: tl ++ rest) with ((c :: tl) ++ rest). rewrite HP, Hu.
    by rewrite <- Hz.
  - rewrite parse_print_uint by done. rewrite Hu. by rewrite <- Hz.
Qed.

Lemma skip_ws_opens (c : ascii) (s : list ascii) :
  is_ws c = false -> skip_ws (c :: s) = c :: s.
Proof. intros H. simpl. by rewrite H. Qed.

(** White space in front of a value is passed over. *)
Lemma parse_space (fuel : nat) (s : list ascii) :
  parse fuel (" "%char :: s) = parse fuel s.
Proof. by destruct fuel. Qed.

Lemma parse_items_space (fuel : nat) (s : list ascii) :
  parse_items fuel (" "%char :: s) = parse_items fuel s.
Proof. destruct fuel; [done|]. cbn [parse_items]. by rewrite parse_space. Qed.

Lemma parse_members_space (fuel : nat) (s : list ascii) :
  parse_members fuel (" "%char :: s) = parse_members fuel s.
Proof. by destruct fuel. Qed.

(** A number is read as a number. *)
Lemma parse_number (fuel : nat) (c : ascii) (s : list ascii) :
  is_Some (digit c) \/ c = "-"%char ->
  parse (S fuel) (c :: s) =
    match parse_int (c :: s) with
    | Some (z, rest') => Some (Int z, rest')
    | None => None
    end.
Proof.
  intros [Hc| ->]; [|reflexivity].
  destruct c as [[] [] [] [] [] [] [] []]; try reflexivity; by destruct Hc as [? [=]].
Qed.

Lemma print_int_head (z : Z) :
  exists c tl, print_int (Z.to_int z) = c :: tl /\
               (is_Some (digit c) \/ c = "-"%char).
Proof.
  destruct (to_int_cases z) as (u & Hu & [E|E]); rewrite E; simpl.
  - destruct (print_uint_head u (integer_digits_nonnil u Hu)) as (c & tl & Hp & Hc). eauto.
  - eauto.
Qed.

Lemma digit_opens (c : ascii) : is_Some (digit c) -> opens c.
Proof.
  intros Hc. destruct c as [[] [] [] [] [] [] [] []];
    solve [by destruct Hc as [? [=]] | by repeat split].
Qed.

Lemma print_head (v : value) : exists c tl, print v = c :: tl /\ opens c.
Proof.
  destruct v as [|[]|z|s|items|members]; try (eexists _, _; by repeat split).
  destruct (print_int_head z) as (c & tl & Hp & Hc). exists c, tl. split; [done|].
  destruct Hc as [Hc| ->]; [by apply digit_opens|by repeat split].
Qed.

Lemma parse_array (fuel : nat) (c : ascii) (s : list ascii) :
  opens c ->
  parse (S fuel) ("["%char :: c :: s) =
    match parse_items fuel (c :: s) with
    | Some (items, rest') => Some (List items, rest')
    | None => None
    end.
Proof.
  intros (Hc & _ & Hw).
  destruct c as [[] [] [] [] [] [] [] []]; try reflexivity; done.
Qed.

Lemma parse_object (fuel : nat) (c : ascii) (s : list ascii) :
  opens c ->
  parse (S fuel) ("{"%char :: c :: s) =
    match parse_members fuel (c :: s) with
    | Some (members, rest') => Some (Dict (as_dict members), rest')
    | None => None
    end.
Proof.
  intros (_ & Hc & Hw).
  destruct c as [[] [] [] [] [] [] [] []]; try reflexivity; done.
Qed.

Lemma value_nested_ind (P : value -> Prop) :
  P Null -> (forall b, P (Bool b)) -> (forall z, P (Int z)) -> (forall s, P (Str s)) ->
  (forall items, Forall P items -> P (List items)) ->
  (forall members, Forall (fun kv => P (snd kv)) members -> P (Dict members)) ->
  forall v, P v.
Proof.
  intros HN HB HI HS HL HD.
  fix IH 1. intros [|b|z|s|items|members].
  - apply HN.
  - apply HB.
  - apply HI.
  - apply HS.
  - apply HL. induction items as [|v items IHi]; constructor; [apply IH|exact IHi].
  - apply HD. induction members as [|[k v] members IHm]; constructor; [apply IH|exact IHm].
Qed.

Lemma print_seq_cons {A} (pr : A -> list ascii) (close : ascii) (x : A) (l : list A) :
  print_seq pr close (x :: l) =
    pr x ++ match l with
            | [] => [close]
            | _ :: _ => ","%char :: " "%char :: print_seq pr close l
            end.
Proof. reflexivity. Qed.

Lemma parse_print_items (items : list value) :
  Forall reads_back items -> items <> [] ->
  forall fuel rest,
    (need_seq need items <= fuel)%nat ->
    parse_items fuel (print_seq print "]"%char items ++ rest)
      = Some (map as_loaded items, rest).
Proof.
  induction 1 as [|v l Hv Hl IH]; [done|]. intros _ fuel rest Hfuel.
  change (need_seq need (v :: l)) with (S (need v + need_seq need l)) in Hfuel.
  destruct fuel as [|fuel]; [lia|].
  rewrite print_seq_cons, <- app_assoc. cbn [parse_items].
  destruct l as [|x l].
  - rewrite Hv by (done || lia). reflexivity.
  - rewrite Hv by (done || lia). cbn [app skip_ws is_ws Ascii.eqb Bool.eqb orb].
    rewrite parse_items_space, IH by (done || lia). reflexivity.
Qed.

Lemma parse_print_members (members : list (string * value)) :
  Forall (fun kv => reads_back (snd kv)) members -> members <> [] ->
  forall fuel rest,
    (need_seq (fun kv => need (snd kv)) members <= fuel)%nat ->
    parse_members fuel (print_seq (print_member print) "}"%char members ++ rest)
      = Some (map (fun kv => (fst kv, as_loaded (snd kv))) members, rest).
Proof.
  induction 1 as [|[k v] l Hv Hl IH]; [done|]. intros _ fuel rest Hfuel.
  change (need_seq (fun kv => need (snd kv)) ((k, v) :: l))
    with (S (need v + need_seq (fun kv => need (snd kv)) l)) in Hfuel.
  destruct fuel as [|fuel]; [lia|].
  rewrite print_seq_cons. unfold print_member at 1, print_string. cbn [fst snd].
  rewrite <- !app_assoc. cbn [app parse_members skip_ws is_ws Ascii.eqb Bool.eqb orb].
  rewrite <- app_assoc. cbn [app].
  rewrite parse_print_chars. cbn [skip_ws is_ws Ascii.eqb Bool.eqb orb].
  rewrite parse_space. simpl in Hv.
  destruct l as [|x l].
  - rewrite Hv by (done || lia). cbn [app skip_ws is_ws Ascii.eqb Bool.eqb orb map fst snd].
    by rewrite string_of_list_ascii_of_string.
  - rewrite Hv by (done || lia). cbn [app skip_ws is_ws Ascii.eqb Bool.eqb orb].
    rewrite parse_members_space, IH by (done || lia).
    cbn [map fst snd]. by rewrite string_of_list_ascii_of_string.
Qed.

Lemma parse_print (v : value) : reads_back v.
Proof.
  induction v as [|b|z|s|items IH|members IH] using value_nested_ind;
    intros fuel rest Hfuel Hrest;
    (destruct fuel as [|fuel]; [simpl in Hfuel; lia|]).
  - reflexivity.
  - by destruct b.
  - destruct (print_int_head z) as (c & tl & Hp & Hc).
    pose proof (parse_print_int z rest Hrest) as HP.
    cbn [print]. rewrite Hp in HP |- *. cbn [app] in HP |- *.
    by rewrite parse_number, HP.
  - cbn [print]. unfold print_string. cbn [app]. rewrite <- app_assoc.
    cbn [app parse skip_ws is_ws Ascii.eqb Bool.eqb orb].
    by rewrite parse_print_chars, string_of_list_ascii_of_string.
  - destruct items as [|v items]; [reflexivity|].
    pose proof (parse_print_items (v :: items) IH ltac:(done) fuel rest) as HP.
    cbn [print need as_loaded] in *. destruct (print_head v) as (c & tl & Hp & Hc).
    rewrite print_seq_cons, Hp in HP |- *. cbn [app] in HP |- *.
    rewrite parse_array by done. rewrite HP by lia. reflexivity.
  - destruct members as [|[k v] members]; [reflexivity|].
    pose proof (parse_print_members ((k, v) :: members) IH ltac:(done) fuel rest) as HP.
    cbn [print need as_loaded] in *.
    rewrite print_seq_cons in HP |- *. unfold print_member at 1, print_string in HP.
    unfold print_member at 1, print_string. cbn [app] in HP |- *.
    rewrite parse_object by (by repeat split). rewrite HP by lia. reflexivity.
Qed.

Lemma need_le_length (v : value) : (need v <= length (print v))%nat.
Proof.
  induction v as [|b|z|s|items IH|members IH] using value_nested_ind.
  - simpl. lia.
  - destruct b; simpl; lia.
  - destruct (print_int_head z) as (c & tl & Hp & _). cbn [print need].
    rewrite Hp. simpl. lia.
  - cbn [print need]. unfold print_string. simpl. lia.
  - cbn [print need length]. apply le_n_S.
    induction IH as [|v l Hv Hl IHl]; [simpl; lia|].
    rewrite print_seq_cons, length_app.
    change (need_seq need (v :: l)) with (S (need v + need_seq need l)).
    destruct l; simpl in *; lia.
  - cbn [print need length]. apply le_n_S.
    induction IH as [|[k v] l Hv Hl IHl]; [simpl; lia|].
    rewrite print_seq_cons, length_app. unfold print_member at 1.
    rewrite length_app.
    change (need_seq (fun kv => need (snd kv)) ((k, v) :: l))
      with (S (need v + need_seq (fun kv => need (snd kv)) l)).
    simpl in Hv. destruct l; simpl in *; lia.
Qed.

(** [loads] reads the text of a value back, members assigned in turn. *)
Theorem loads_dumps (v : value) : loads (dumps v) = Some (as_loaded v).
Proof.
  unfold loads, dumps. rewrite list_ascii_of_string_of_list_ascii.
  pose proof (parse_print v (length (print v)) [] (need_le_length v) I) as HP.
  rewrite app_nil_r in HP. by rewrite HP.
Qed.

Lemma assign_fresh {A} (k : string) (v : A) (l : list (string * A)) :
  k ∉ map fst l -> assign k v l = l ++ [(k, v)].
Proof.
  induction l as [|[k' v'] l IH]; [done|]. intros Hk.
  apply not_elem_of_cons in Hk as [Hne Hk]. simpl in Hne. cbn [assign].
  destruct (String.eqb_spec k' k) as [->|_]; [done|].
  by rewrite IH.
Qed.

Lemma as_dict_distinct {A} (l : list (string * A)) :
  NoDup (map fst l) -> as_dict l = l.
Proof.
  unfold as_dict.
  enough (H : forall d, NoDup (map fst (d ++ l)) ->
                        fold_left (fun d kv => assign (fst kv) (snd kv) d) l d = d ++ l)
    by (intros Hl; exact (H [] Hl)).
  induction l as [|[k v] l IH]; intros d Hd; [by rewrite app_nil_r|].
  cbn [fold_left fst snd].
  rewrite map_app in Hd. cbn [map fst] in Hd.
  apply NoDup_app in Hd as (Hd1 & Hd2 & Hd3).
  rewrite assign_fresh.
  - rewrite IH; [by rewrite <- app_assoc|].
    rewrite <- app_assoc, map_app. cbn [app map fst].
    apply NoDup_app. done.
  - intros Hin. apply (Hd2 k Hin). left.
Qed.

(** A value whose objects have distinct keys is read back as it is. *)
Lemma as_loaded_distinct (v : value) : distinct_keys v = true -> as_loaded v = v.
Proof.
  induction v as [|b|z|s|items IH|members IH] using value_nested_ind; try done.
  - cbn [distinct_keys as_loaded]. intros H. f_equal.
    induction IH as [|v l Hv Hl IHl]; [done|].
    cbn [forallb] in H. apply andb_prop in H as [H1 H2].
    cbn [map]. by rewrite Hv, IHl.
  - cbn [distinct_keys as_loaded]. intros H. apply andb_prop in H as [Hk H].
    apply bool_decide_eq_true in Hk.
    assert (Hm : map (fun kv => (fst kv, as_loaded (snd kv))) members = members).
    { clear Hk. induction IH as [|[k v] l Hv Hl IHl]; [done|].
      cbn [forallb snd] in H. apply andb_prop in H as [H1 H2].
      cbn [map fst snd]. simpl in Hv. by rewrite Hv, IHl. }
    rewrite Hm. by rewrite as_dict_distinct.
Qed.

Theorem loads_dumps_distinct (v : value) :
  distinct_keys v = true -> loads (dumps v) = Some v.
Proof. intros H. by rewrite loads_dumps, as_loaded_distinct. Qed.

(** Texts in other layouts than the one [dumps] writes: without the space
    after a separator, or with white space between the tokens; a number with a
    zero in front, a trailing comma and a float are refused; of a key that
    comes twice the last value is kept. *)
Example loads_other_layouts :
  loads "[1,2]" = Some (List [Int 1; Int 2]) /\
  loads " [ 1 , 2 ] " = Some (List [Int 1; Int 2]) /\
  loads (String "{" (String "034" (String "a" (String "034" ":1}"))))
    = Some (Dict [("a", Int 1)]) /\
  loads "[ ]" = Some (List []) /\ loads "{ }" = Some (Dict []) /\
  loads "-0" = Some (Int 0) /\
  loads "01" = None /\ loads "[1,]" = None /\ loads "1.5" = None /\
  loads (dumps (Dict [("a", Int 1); ("b", Int 2); ("a", Int 3)]))
    = Some (Dict [("a", Int 3); ("b", Int 2)]).
Proof. repeat split; reflexivity. Qed.

End JsonFacts.

(** ** Payloads through the JSON text *)

Module PyFacts.
Import Py.






End PyFacts.

(** ** The invalidation payload, through [json.dumps] and [json.loads] *)





(** ** The statements on the concrete calls *)

Lemma healthy_fault_free : fault_free (fun _ => healthy).
Proof. by intros i. Qed.


Lemma share_encodable : encodable Json.encode Example.share.
Proof. by eexists. Qed.


(** The race of [Example.race]: both allocations return, with ids 1 and 6. *)
Lemma C1_unique_ids_race :
  NoDup (key <$> table Example.empty) /\
  returned Example.calls = [] /\
  let s := run Json.encode Example.race
             {| pool := Example.calls; world := Example.empty |} in
  NoDup (key <$> table (world s)) /\
  table Example.empty `suffix_of` table (world s) /\
  (exists evs, trace (world s) = evs ++ trace Example.empty /\
               Forall conditional_create evs) /\
  NoDup (ids_of 7 (returned (pool s))) /\
  size (list_to_set (ids_of 7 (returned (pool s))) : gset Z)
    = length (filter (fun n => user_id n = 7) (returned (pool s))).
Proof.
  split; [constructor|]. split; [reflexivity|].
  apply (C1_unique_ids Json.encode Example.calls Example.empty Example.race 7);
    [constructor|reflexivity].
Defined.

(** An iteration of [Example.comment] after the marker row with id 5. *)
Lemma C2_next_id_after_marker :
  let w1 := logged (EvRangeQuery 7 (Some 1%nat) false false) Example.marked in
  QueryLast healthy 7 false Example.marked = (inr (Some Example.marker), w1) /\
  step_task Json.encode healthy (CreateForUser_query Example.comment false) Example.marked
    = (CreateForUser_write Example.comment false (Example.comment_row 6 1), w1) /\
  next_id_badge (Some Example.marker) = (6, 1 - 1) /\
  6 = notification_id Example.marker + 1 /\ 1 - 1 = badge Example.marker.
Proof.
  intros w1. split; [reflexivity|]. split; [reflexivity|].
  destruct (proj1 (C2_next_id_and_carried_badge Json.encode healthy Example.comment
                     false Example.marked)
              (Some Example.marker) (Example.comment_row 6 1) w1 w1 eq_refl eq_refl)
    as [H1 [H2 H3]].
  split; [exact H1|]. split; [exact H2|exact H3].
Defined.


(** [Example.comment] is triggered by user 8 for user 7: no [viewed_seq]. *)
Lemma C4_foreign_comment :
  CreateForUser Json.encode 1 (fun _ => healthy) Example.comment false Example.empty
    = (inr (Some (Example.comment_row 1 1)),
       committed (Example.comment_row 1 1)
         (logged (EvRangeQuery 7 (Some 1%nat) false false) Example.empty)) /\
  Operation.user_id (Call.operation Example.comment) <> Call.user_id Example.comment /\
  viewed_seq (Example.comment_row 1 1) = None.
Proof.
  split; [reflexivity|]. split; [done|].
  refine (proj2 (proj1 (proj2 (C4_viewed_seq_only_for_own_user Json.encode
                                 Example.comment))
                   1%nat (fun _ => healthy) false Example.empty _ _ eq_refl) _).
  done.
Defined.

(** Its [update_seq] is stored all the same. *)
Lemma C10_foreign_comment :
  CreateForUser Json.encode 1 (fun _ => healthy) Example.comment false Example.empty
    = (inr (Some (Example.comment_row 1 1)),
       committed (Example.comment_row 1 1)
         (logged (EvRangeQuery 7 (Some 1%nat) false false) Example.empty)) /\
  update_seq (Example.comment_row 1 1) = Some 6.
Proof.
  split; [reflexivity|].
  exact (proj1 (proj2 (C10_update_seq_unconditional Json.encode Example.comment))
           1%nat (fun _ => healthy) false Example.empty _ _ eq_refl).
Defined.

(** Rows 1, 3, 2 went in in that order: the last row is row 3. *)
Lemma C5_last_of_three :
  fault healthy = None /\
  (false = true \/ lag healthy = 0%nat) /\
  ids_of 7 (table Example.three) ≡ₚ [1; 2; 3] /\
  exists r, (QueryLast healthy 7 false Example.three).1 = inr (Some r) /\
            r ∈ table Example.three /\ user_id r = 7 /\ notification_id r = 3.
Proof.
  assert (HP : ids_of 7 (table Example.three) ≡ₚ [1; 2; 3]).
  { change (ids_of 7 (table Example.three)) with [2; 3; 1].
    transitivity [2; 1; 3]; [apply perm_skip|]; apply perm_swap. }
  split; [reflexivity|]. split; [by right|]. split; [exact HP|].
  exact (proj2 (proj2 (proj2 (proj2
           (C5_QueryLast_is_descending_limit_1 healthy 7 false Example.three))))
           eq_refl (or_intror eq_refl) HP).
Defined.

(** Rows 1, 2 and 3 went in in that order and are all stored.  The default
    read is eventually consistent: one that lags by one write returns row 2,
    and one that lags by three returns no row. *)
Lemma C5_lagging_read_misses_row_3 :
  ids_of 7 (table Cases.in_order) ≡ₚ [1; 2; 3] /\
  fault Example.stale = None /\ fault Cases.blind = None /\
  (QueryLast Example.stale 7 false Cases.in_order).1
    = inr (Some (Example.comment_row 2 1)) /\
  (QueryLast Cases.blind 7 false Cases.in_order).1 = inr None /\
  ~ (forall ch consistent_read w,
       fault ch = None -> ids_of 7 (table w) ≡ₚ [1; 2; 3] ->
       exists r, (QueryLast ch 7 consistent_read w).1 = inr (Some r) /\
                 notification_id r = 3).
Proof.
  assert (HP : ids_of 7 (table Cases.in_order) ≡ₚ [1; 2; 3]).
  { change (ids_of 7 (table Cases.in_order)) with [3; 2; 1].
    transitivity [2; 3; 1]; [apply perm_swap|].
    transitivity [2; 1; 3]; [apply perm_skip|]; apply perm_swap. }
  split; [exact HP|]. split; [reflexivity|]. split; [reflexivity|].
  split; [reflexivity|]. split; [reflexivity|].
  intros H. destruct (H Example.stale false Cases.in_order eq_refl HP) as (r & Hr & Hid).
  change ((QueryLast Example.stale 7 false Cases.in_order).1)
    with (@inr Exception _ (Some (Example.comment_row 2 1))) in Hr.
  injection Hr as <-. discriminate Hid.
Qed.



(** Two [TryClearBadge] calls for id 5, the second from another device. *)
Lemma C7_clear_twice :
  fault healthy = None /\
  ((7, 5) ∉ (key <$> table Example.empty)) /\
  exists w1 w2,
    TryClearBadge healthy 1002 7 70 5 Example.empty = (inr true, w1) /\
    TryClearBadge Example.stale 1003 7 71 5 w1 = (inr false, w2) /\
    length (filter (fun m => key m = (7, 5)) (table w2)) = 1%nat.
Proof.
  assert (Hfree : (7, 5) ∉ (key <$> table Example.empty)) by apply not_elem_of_nil.
  split; [reflexivity|]. split; [exact Hfree|].
  exact (proj2 (proj2 (proj2 (proj2
           (C7_TryClearBadge_once healthy 1002 7 70 5 Example.empty))))
           Example.stale 1003 71 eq_refl Hfree).
Defined.

(** A conflict on the marker's id and a timeout both end in a retry. *)
Lemma C8_conflict_retries :
  let w1 := logged (update_event Example.marker) Example.marked in
  let w2 := logged (update_event Example.marker) Example.empty in
  Update healthy Example.marker (ExpectAbsent col_notification_id) Example.marked
    = (inl ConditionalCheckFailed, w1) /\
  _TryUpdate healthy Example.marker Example.marked = (inr false, w1) /\
  step_task Json.encode healthy
      (CreateForUser_write Example.comment false Example.marker) Example.marked
    = (CreateForUser_query Example.comment true, w1) /\
  Update Example.timeout Example.marker (ExpectAbsent col_notification_id) Example.empty
    = (inl (StoreError "timeout"), w2) /\
  step_task Json.encode Example.timeout
      (CreateForUser_write Example.comment false Example.marker) Example.empty
    = (CreateForUser_query Example.comment true, w2).
Proof.
  intros w1 w2. split; [reflexivity|].
  destruct (C8_write_failure_retries_strongly Json.encode healthy Example.comment
              false Example.marker Example.marked w1 ConditionalCheckFailed eq_refl)
    as (_ & _ & Htry & Hstep & _).
  destruct (C8_write_failure_retries_strongly Json.encode Example.timeout
              Example.comment false Example.marker Example.empty w2
              (StoreError "timeout") eq_refl)
    as (_ & _ & _ & Hstep2 & _).
  split; [exact Htry|]. split; [exact Hstep|]. split; [reflexivity|exact Hstep2].
Defined.

(** Left alone with a store that answers, [Example.share] returns at once. *)
Lemma C9_share_returns :
  fault_free (fun _ => healthy) /\ encodable Json.encode Example.share /\
  exists n w',
    CreateForUser Json.encode 2 (fun _ => healthy) Example.share false Example.empty
      = (inr (Some n), w') /\
    run_task Json.encode 4 (fun _ => healthy)
        (start_CreateForUser Example.share false) Example.empty
      = (Finished (RetNotification n), w') /\
    table w' = n :: table Example.empty.
Proof.
  split; [exact healthy_fault_free|]. split; [exact share_encodable|].
  exact (proj1 (proj2 (proj2
           (C9_returns_committed_row_or_raises Json.encode (fun _ => healthy)
              Example.share false Example.empty)))
           healthy_fault_free share_encodable).
Defined.

(** When every write times out, [Example.share] neither returns nor raises,
    however long it runs, and commits nothing. *)
Lemma C9_outage_never_returns :
  ~ (exists k r,
       (run_task Json.encode k Example.outage
          (start_CreateForUser Example.share false) Example.empty).1 = Finished r) /\
  forall fuel, exists w',
    CreateForUser Json.encode fuel Example.outage Example.share false Example.empty
      = (inr None, w') /\
    table w' = [].
Proof.
  assert (Hr : answering_reads Example.outage).
  { intros i Hi. unfold Example.outage. by rewrite Hi. }
  assert (Hw : failing_writes Example.outage).
  { intros i Hi. unfold Example.outage. by rewrite Hi. }
  assert (Hloop : forall fuel, exists w',
            CreateForUser Json.encode fuel Example.outage Example.share false
              Example.empty = (inr None, w') /\ table w' = []).
  { intros fuel. by apply CreateForUser_outage; [| |apply share_encodable]. }
  split; [|exact Hloop].
  intros (k & r & Hfin).
  (* a finished task stays finished, so it is finished after [2 * k] steps *)
  assert (Hlater : (run_task Json.encode (2 * k) Example.outage
                      (start_CreateForUser Example.share false) Example.empty).1
                   = Finished r).
  { replace (2 * k)%nat with (k + k)%nat by lia.
    rewrite run_task_add.
    destruct (run_task Json.encode k Example.outage
                (start_CreateForUser Example.share false) Example.empty) as [t w].
    simpl in Hfin. subst t. by rewrite run_task_finished. }
  unfold start_CreateForUser in Hlater. rewrite run_task_loop in Hlater.
  destruct (Hloop k) as (w' & Hrun & _). by rewrite Hrun in Hlater.
Qed.

(** ** Further properties of the code *)

(** *** What [QueryLast] returns *)

(** X1. When the store answers, [QueryLast] returns a row that the read
    sees: a row of the table that belongs to the user asked for, is among the
    rows visible to the read, and has the highest id among the rows of that
    user that the read sees.  It returns [None] only when the read sees no row
    of the user.  When the store fails, its error is raised as it is. *)
Theorem X1_QueryLast_highest_visible (ch : EnvChoice) (uid : Z)
    (consistent_read : bool) (w : World) :
  (fault ch = None ->
   match (QueryLast ch uid consistent_read w).1 with
   | inr (Some r) =>
       r ∈ visible consistent_read ch (table w) /\
       r ∈ table w /\ user_id r = uid /\
       forall m, m ∈ visible consistent_read ch (table w) -> user_id m = uid ->
                 notification_id m <= notification_id r
   | inr None => partition_of uid (visible consistent_read ch (table w)) = []
   | inl _ => False
   end) /\
  (forall e, fault ch = Some e -> (QueryLast ch uid consistent_read w).1 = inl e).
Proof.
  rewrite QueryLast_eq. split.
  - intros ->. cbn [fst].
    destruct (last_row uid (visible consistent_read ch (table w))) as [r|] eqn:Hl.
    + apply last_row_Some in Hl as (Hr & Hu & Hmax). split; [done|]. split; [|done].
      unfold visible in Hr. destruct consistent_read; [done|].
      by eapply (subseteq_drop (lag ch)).
    + by apply last_row_None.
  - by intros e ->.
Qed.

(** Rows 1, 2 and 3 went in in that order.  A read that lags by one write
    returns row 2, the highest row it sees: row 3 is in the table, and a
    strongly consistent read returns it. *)
Lemma X1_stale_read_returns_row_2 :
  fault Example.stale = None /\
  (QueryLast Example.stale 7 false Cases.in_order).1
    = inr (Some (Example.comment_row 2 1)) /\
  Example.comment_row 2 1 ∈ visible false Example.stale (table Cases.in_order) /\
  (forall m, m ∈ visible false Example.stale (table Cases.in_order) -> user_id m = 7 ->
             notification_id m <= 2) /\
  Example.comment_row 3 2 ∈ table Cases.in_order /\
  (Example.comment_row 3 2 ∉ visible false Example.stale (table Cases.in_order)) /\
  (QueryLast Example.stale 7 true Cases.in_order).1
    = inr (Some (Example.comment_row 3 2)).
Proof.
  split; [reflexivity|]. split; [reflexivity|].
  pose proof (proj1 (X1_QueryLast_highest_visible Example.stale 7 false Cases.in_order)
                eq_refl) as H.
  change ((QueryLast Example.stale 7 false Cases.in_order).1)
    with (@inr Exception _ (Some (Example.comment_row 2 1))) in H.
  destruct H as (Hvis & _ & _ & Hmax).
  split; [exact Hvis|]. split; [exact Hmax|].
  split; [left|]. split; [|reflexivity].
  intros Hin. cbn in Hin.
  apply elem_of_cons in Hin as [Hin|Hin]; [discriminate Hin|].
  apply elem_of_cons in Hin as [Hin|Hin]; [discriminate Hin|].
  by apply elem_of_nil in Hin.
Defined.

(** *** The first attempt of a call *)

Section FirstAttempt.

Context {Payload : Type}.
Variable json_dumps : Payload -> Exception + string.

Lemma CreateForUser_first_attempt (fuel : nat) (env : nat -> EnvChoice)
    (c : Call.t Payload) (consistent_read : bool) (w : World) (n : Notification) :
  fault (env 0%nat) = None ->
  candidate json_dumps c
    (last_row (Call.user_id c) (visible consistent_read (env 0%nat) (table w))) = inr n ->
  creates (env 1%nat) n (table w) = true ->
  CreateForUser json_dumps (S fuel) env c consistent_read w =
    (inr (Some n),
     committed n (logged (EvRangeQuery (Call.user_id c) (Some 1%nat) false consistent_read) w)).
Proof.
  intros Hf Hc Hw. rewrite CreateForUser_S, QueryLast_eq, Hf, Hc.
  cbn [logged table]. by rewrite Hw.
Qed.

(** X2. The id a call tries first is the one after the last row that its read
    saw (1 when it saw none), and the badge it carries is that row's.  When
    the store answers and that id is free, the call commits it at once and
    returns, even if the table holds rows of the user with higher ids that the
    read missed. *)
Theorem X2_first_attempt_follows_seen_row (fuel : nat) (env : nat -> EnvChoice)
    (c : Call.t Payload) (consistent_read : bool) (w : World) :
  let seen := last_row (Call.user_id c)
                (visible consistent_read (env 0%nat) (table w)) in
  fault (env 0%nat) = None -> fault (env 1%nat) = None ->
  encodable json_dumps c ->
  (Call.user_id c, (next_id_badge seen).1) ∉ (key <$> table w) ->
  exists n,
    CreateForUser json_dumps (S fuel) env c consistent_read w =
      (inr (Some n),
       committed n
         (logged (EvRangeQuery (Call.user_id c) (Some 1%nat) false consistent_read) w)) /\
    user_id n = Call.user_id c /\
    notification_id n = (next_id_badge seen).1 /\
    badge n = (next_id_badge seen).2 + increment c.
Proof.
  intros seen Hf0 Hf1 Henc Hfree.
  destruct (candidate_encodable json_dumps c seen Henc) as [n Hn].
  pose proof (candidate_fields json_dumps c seen n Hn) as (Hu & Hi & Hb & _).
  exists n. split; [|done].
  apply CreateForUser_first_attempt; [done|done|].
  apply creates_true. split; [done|]. unfold key. by rewrite Hu, Hi.
Qed.

Lemma CreateForUser_sees_all (fuel : nat) (env : nat -> EnvChoice)
    (c : Call.t Payload) (consistent_read : bool) (w : World) :
  sees_all consistent_read (env 0%nat) ->
  fault (env 0%nat) = None -> fault (env 1%nat) = None ->
  encodable json_dumps c ->
  exists n,
    candidate json_dumps c (last_row (Call.user_id c) (table w)) = inr n /\
    CreateForUser json_dumps (S fuel) env c consistent_read w =
      (inr (Some n),
       committed n
         (logged (EvRangeQuery (Call.user_id c) (Some 1%nat) false consistent_read) w)).
Proof.
  intros Hsees Hf0 Hf1 Henc.
  destruct (candidate_encodable json_dumps c
              (last_row (Call.user_id c) (table w)) Henc) as [n Hn].
  pose proof (candidate_fields json_dumps c _ n Hn) as (Hu & Hi & _).
  exists n. split; [done|].
  apply CreateForUser_first_attempt; [done|by rewrite visible_fresh|].
  apply creates_true. split; [done|]. by eapply fresh_after_last.
Qed.


End FirstAttempt.

(** *** Clearing the badge, then allocating *)

Lemma key_inj_NoDup (rows : list Notification) (a b : Notification) :
  NoDup (key <$> rows) -> a ∈ rows -> b ∈ rows -> key a = key b -> a = b.
Proof.
  induction rows as [|x rows IH]; [by intros _ ?%elem_of_nil|].
  rewrite fmap_cons. intros [Hx Hnd]%NoDup_cons Ha Hb Hk.
  apply elem_of_cons in Ha as [->|Ha]; apply elem_of_cons in Hb as [->|Hb].
  - done.
  - exfalso. apply Hx. rewrite Hk. apply list_elem_of_fmap. eauto.
  - exfalso. apply Hx. rewrite <- Hk. apply list_elem_of_fmap. eauto.
  - by apply IH.
Qed.

Lemma last_row_unique (uid : Z) (rows : list Notification) (r : Notification) :
  NoDup (key <$> rows) -> r ∈ rows -> user_id r = uid ->
  (forall m, m ∈ rows -> user_id m = uid -> notification_id m <= notification_id r) ->
  last_row uid rows = Some r.
Proof.
  intros Hnd Hr Hu Hmax.
  destruct (last_row uid rows) as [r'|] eqn:Hl.
  - apply last_row_Some in Hl as (Hr' & Hu' & Hmax'). f_equal.
    apply (key_inj_NoDup rows); [done..|].
    specialize (Hmax r' Hr' Hu'). specialize (Hmax' r Hr Hu).
    unfold key. f_equal; [congruence|lia].
  - apply last_row_None in Hl.
    assert (Hin : r ∈ partition_of uid rows) by by apply list_elem_of_filter.
    rewrite Hl in Hin. by apply elem_of_nil in Hin.
Qed.

Lemma last_row_cons_top (uid : Z) (rows : list Notification) (n : Notification) :
  user_id n = uid ->
  (forall m, m ∈ rows -> user_id m = uid -> notification_id m < notification_id n) ->
  last_row uid (n :: rows) = Some n.
Proof.
  intros Hu Hlt.
  destruct (last_row uid (n :: rows)) as [r|] eqn:Hl.
  - apply last_row_Some in Hl as (Hr & Hur & Hmax). f_equal.
    apply elem_of_cons in Hr as [->|Hr]; [done|].
    specialize (Hlt r Hr Hur). specialize (Hmax n ltac:(left) Hu). lia.
  - apply last_row_None in Hl.
    assert (Hin : n ∈ partition_of uid (n :: rows))
      by (apply list_elem_of_filter; split; [done|left]).
    rewrite Hl in Hin. by apply elem_of_nil in Hin.
Qed.

Lemma TryClearBadge_eq (ch : EnvChoice) (now uid device_id nid : Z) (w : World) :
  TryClearBadge ch now uid device_id nid w =
    if creates ch (clear_badges_row now uid device_id nid) (table w)
    then (inr true, committed (clear_badges_row now uid device_id nid) w)
    else (inr false, logged (update_event (clear_badges_row now uid device_id nid)) w).
Proof.
  unfold TryClearBadge, bind, ret. rewrite TryUpdate_eq.
  by destruct (creates ch _ (table w)).
Qed.

Section Composition.

Context {Payload : Type}.
Variable json_dumps : Payload -> Exception + string.

(** X4. A [clear_badges] row resets the running badge only when its id is
    the highest of the user.  After [TryClearBadge] has committed id [k]: if
    every id of the user was below [k], the next call that sees the table gets
    id [k + 1] and a badge that is just its own increment; if the user already
    had a row [r] with an id above [k], the next call gets the id after [r]
    and carries the badge of [r], as if the badge had not been cleared. *)
Theorem X4_clear_badges_resets_badge_only_on_top (ch : EnvChoice)
    (now uid device_id k : Z) (w : World) :
  let marker := clear_badges_row now uid device_id k in
  fault ch = None -> (uid, k) ∉ (key <$> table w) ->
  TryClearBadge ch now uid device_id k w = (inr true, committed marker w) /\
  forall (fuel : nat) (env : nat -> EnvChoice) (c : Call.t Payload)
         (consistent_read : bool),
    Call.user_id c = uid ->
    sees_all consistent_read (env 0%nat) ->
    fault (env 0%nat) = None -> fault (env 1%nat) = None ->
    encodable json_dumps c ->
    exists n w',
      CreateForUser json_dumps (S fuel) env c consistent_read (committed marker w)
        = (inr (Some n), w') /\
      ((forall m, m ∈ table w -> user_id m = uid -> notification_id m < k) ->
       notification_id n = k + 1 /\ badge n = increment c) /\
      (NoDup (key <$> table w) ->
       forall r, last_row uid (table w) = Some r -> k < notification_id r ->
                 notification_id n = notification_id r + 1 /\
                 badge n = badge r + increment c).
Proof.
  intros marker Hf Hfree.
  assert (Hw : creates ch marker (table w) = true) by by apply creates_true.
  split; [by rewrite TryClearBadge_eq; fold marker; rewrite Hw|].
  intros fuel env c cr Hc Hsees Hf0 Hf1 Henc.
  destruct (CreateForUser_sees_all json_dumps fuel env c cr (committed marker w)
              Hsees Hf0 Hf1 Henc) as (n & Hn & Hrun).
  exists n. eexists. split; [exact Hrun|]. rewrite Hc in Hn. cbn [committed table] in Hn.
  split.
  - intros Hbelow. rewrite (last_row_cons_top uid (table w) marker) in Hn by done.
    apply candidate_fields in Hn as (_ & Hi & Hb & _). simpl in Hi, Hb. lia.
  - intros Hnd r Hr Hlt.
    assert (Hl : last_row uid (marker :: table w) = Some r).
    { pose proof Hr as (Hin & Hu & Hmax)%last_row_Some.
      apply last_row_unique; [|by right|done|].
      - rewrite fmap_cons. by apply NoDup_cons_2.
      - intros m [->|Hm]%elem_of_cons Hmu; [simpl; lia|by apply Hmax]. }
    rewrite Hl in Hn.
    apply candidate_fields in Hn as (_ & Hi & Hb & _). simpl in Hi, Hb. lia.
Qed.

End Composition.

(** *** Pools of calls: one row per successful call, rows well formed *)

Section Pools.

Context {Payload : Type}.
Variable json_dumps : Payload -> Exception + string.

Lemma step_task_credit (ch : EnvChoice) (t t' : Task Payload) (w w' : World) :
  step_task json_dumps ch t w = (t', w') ->
  (length (table w') + credit t = length (table w) + credit t')%nat /\
  (credit t <= credit t')%nat /\
  table w `suffix_of` table w' /\
  (forall n, returned_row t' = Some n -> returned_row t = Some n \/ head (table w') = Some n).
Proof.
  destruct t as [c cr|c cr n|n|r].
  - rewrite step_query, QueryLast_eq.
    destruct (fault ch); [intros [= <- <-]; by repeat split|].
    destruct (candidate json_dumps c _); intros [= <- <-]; by repeat split.
  - rewrite step_write. destruct (creates ch n (table w)); intros [= <- <-].
    + cbn [committed table credit returned_row length]. split; [lia|]. split; [lia|].
      split; [by apply suffix_cons_r|]. intros m [= ->]. by right.
    + by repeat split.
  - rewrite step_clear. destruct (creates ch n (table w)); intros [= <- <-].
    + cbn [committed table credit returned_row length]. split; [lia|]. split; [lia|].
      split; [by apply suffix_cons_r|]. done.
    + by repeat split.
  - intros [= <- <-]. split; [done|]. split; [done|]. split; [done|]. by left.
Qed.

Lemma commits_insert (ts : list (Task Payload)) (i : nat) (t t' : Task Payload) :
  ts !! i = Some t ->
  (commits (<[i:=t']> ts) + credit t = commits ts + credit t')%nat.
Proof.
  intros Hi. unfold commits.
  rewrite insert_take_drop by (by eapply lookup_lt_Some).
  rewrite <- (take_drop_middle ts i t Hi) at 3.
  rewrite !sum_list_with_app. simpl. lia.
Qed.

Lemma returned_insert_elem (ts : list (Task Payload)) (i : nat) (t t' : Task Payload)
    (n : Notification) :
  ts !! i = Some t -> n ∈ returned (<[i:=t']> ts) ->
  n ∈ returned ts \/ returned_row t' = Some n.
Proof.
  intros Hi Hn. unfold returned in *.
  rewrite insert_take_drop in Hn by (by eapply lookup_lt_Some).
  rewrite omap_app, elem_of_app in Hn.
  assert (Hts : omap returned_row ts
                = omap returned_row (take i ts) ++ omap returned_row (t :: drop (S i) ts))
    by (by rewrite <- omap_app, take_drop_middle).
  rewrite Hts, elem_of_app. destruct Hn as [Hn|Hn]; [by left; left|].
  simpl in Hn |- *.
  destruct (returned_row t') as [m|] eqn:Ht'.
  - apply elem_of_cons in Hn as [->|Hn]; [by right|].
    left. right. destruct (returned_row t); [by right|done].
  - left. right. destruct (returned_row t); [by right|done].
Qed.

Lemma sched_step_account (s : System) (l : nat * EnvChoice) :
  returned_stored s ->
  let s' := sched_step json_dumps s l in
  (length (table (world s')) + commits (pool s)
     = length (table (world s)) + commits (pool s'))%nat /\
  (commits (pool s) <= commits (pool s'))%nat /\
  table (world s) `suffix_of` table (world s') /\
  returned_stored s'.
Proof.
  intros Hst. unfold sched_step.
  destruct (pool s !! l.1) as [t|] eqn:Hi; [|done].
  destruct (step_task json_dumps l.2 t (world s)) as [t' w'] eqn:Hs.
  apply step_task_credit in Hs as (Hlen & Hle & Hsuf & Hret).
  pose proof (commits_insert (pool s) l.1 t t' Hi) as Hc.
  cbn [pool world]. split; [lia|]. split; [lia|]. split; [done|].
  intros n Hn. cbn [pool world] in Hn |- *.
  destruct (returned_insert_elem _ _ t t' n Hi Hn) as [Hn'|Hn'].
  - destruct Hsuf as [k ->]. apply elem_of_app. right. by apply Hst.
  - apply Hret in Hn' as [Hn'|Hn'].
    + destruct Hsuf as [k ->]. apply elem_of_app. right. apply Hst.
      apply list_elem_of_omap. exists t. split; [|done].
      by eapply list_elem_of_lookup_2.
    + by apply head_Some_elem_of.
Qed.

Lemma run_account (schedule : list (nat * EnvChoice)) (s0 : System) :
  returned_stored s0 ->
  (length (table (world (run json_dumps schedule s0))) + commits (pool s0)
     = length (table (world s0)) + commits (pool (run json_dumps schedule s0)))%nat /\
  (commits (pool s0) <= commits (pool (run json_dumps schedule s0)))%nat /\
  table (world s0) `suffix_of` table (world (run json_dumps schedule s0)) /\
  returned_stored (run json_dumps schedule s0).
Proof.
  unfold run. revert s0.
  induction schedule as [|l schedule IH]; intros s0 Hst0.
  { split; [done|]. split; [done|]. by split. }
  cbn [foldl].
  destruct (sched_step_account s0 l Hst0) as (Hlen & Hle & Hsuf & Hst1).
  destruct (IH _ Hst1) as (Hlen' & Hle' & Hsuf' & Hst').
  split; [lia|]. split; [lia|]. split; [by etrans|done].
Qed.

(** X5. In a pool of calls over one table, under any interleaving, every call
    that has returned a row or [True] accounts for exactly one new row of the
    table and nothing else adds or removes rows: failed attempts, conflicts
    and errors leave none behind.  The rows that returned calls hold are in
    the table, and the rows that were there before are still there. *)
Theorem X5_one_row_per_successful_call (ts : list (Task Payload)) (w : World)
    (schedule : list (nat * EnvChoice)) :
  (forall n, n ∈ returned ts -> n ∈ table w) ->
  let s := run json_dumps schedule {| pool := ts; world := w |} in
  (length (table (world s)) + commits ts = length (table w) + commits (pool s))%nat /\
  (commits ts <= commits (pool s))%nat /\
  table w `suffix_of` table (world s) /\
  (forall n, n ∈ returned (pool s) -> n ∈ table (world s)).
Proof.
  intros Hst s.
  destruct (run_account schedule {| pool := ts; world := w |} Hst)
    as (Hlen & Hle & Hsuf & Hstored).
  split; [exact Hlen|]. split; [exact Hle|]. split; [exact Hsuf|exact Hstored].
Qed.

Lemma candidate_sound (c : Call.t Payload) (last : option Notification)
    (n : Notification) :
  candidate json_dumps c last = inr n ->
  (forall l, last = Some l -> sound_row l) -> sound_row n.
Proof.
  intros (_ & Hi & Hb & _)%candidate_fields Hlast. unfold sound_row, increment in *.
  destruct last as [l|]; simpl in Hi, Hb.
  - destruct (Hlast l eq_refl). destruct (Call.inc_badge c); lia.
  - destruct (Call.inc_badge c); lia.
Qed.

Lemma step_task_sound (ch : EnvChoice) (t t' : Task Payload) (w w' : World) :
  Forall sound_row (table w) ->
  (forall n, pending_row t = Some n -> sound_row n) ->
  step_task json_dumps ch t w = (t', w') ->
  Forall sound_row (table w') /\
  (forall n, pending_row t' = Some n -> sound_row n).
Proof.
  intros Htab Hpend. destruct t as [c cr|c cr n|n|r].
  - rewrite step_query, QueryLast_eq.
    destruct (fault ch); [by intros [= <- <-]|].
    destruct (candidate json_dumps c _) as [e|n] eqn:Hc; intros [= <- <-]; [done|].
    split; [done|]. intros m [= <-]. eapply candidate_sound; [exact Hc|].
    intros l (Hl & _)%last_row_Some.
    apply (proj1 (list.Forall_forall _ _) Htab).
    unfold visible in Hl. destruct cr; [done|]. by eapply (subseteq_drop (lag ch)).
  - rewrite step_write. destruct (creates ch n (table w)); intros [= <- <-].
    + split; [|done]. cbn [committed table]. constructor; [by apply Hpend|done].
    + done.
  - rewrite step_clear. destruct (creates ch n (table w)); intros [= <- <-].
    + split; [|done]. cbn [committed table]. constructor; [by apply Hpend|done].
    + done.
  - by intros [= <- <-].
Qed.

(** X6. Ids stay positive and badges never go negative.  If every row of the
    table has an id of at least 1 and a badge of at least 0, and so has every
    row that a suspended call is about to write (for a [TryClearBadge] call:
    the id its caller chose), then under any interleaving every row of the
    table still has, and every row about to be written too. *)
Theorem X6_ids_positive_badges_not_negative (ts : list (Task Payload)) (w : World)
    (schedule : list (nat * EnvChoice)) :
  Forall sound_row (table w) ->
  Forall (fun t => forall n, pending_row t = Some n -> sound_row n) ts ->
  let s := run json_dumps schedule {| pool := ts; world := w |} in
  Forall sound_row (table (world s)) /\
  Forall (fun t => forall n, pending_row t = Some n -> sound_row n) (pool s).
Proof.
  intros Htab Hts s. subst s. unfold run.
  change ts with (pool {| pool := ts; world := w |}) in Hts.
  change (table w) with (table (world {| pool := ts; world := w |})) in Htab.
  revert Htab Hts. generalize {| pool := ts; world := w |}. clear ts w.
  induction schedule as [|l schedule IH]; intros s0 Htab Hts; [done|].
  cbn [foldl]. apply IH; unfold sched_step;
    destruct (pool s0 !! l.1) as [t|] eqn:Hi; try done;
    destruct (step_task json_dumps l.2 t (world s0)) as [t' w'] eqn:Hs;
    pose proof (step_task_sound _ _ _ _ _ Htab
                  (Forall_lookup_1 _ _ _ _ Hts Hi) Hs) as [Htab' Hpend'];
    cbn [pool world]; [done|].
  by apply Forall_insert.
Qed.

End Pools.

(** *** A call on its own: other users, errors, the row returned *)

Lemma key_in_partition (uid : Z) (rows : list Notification) (n : Notification) :
  user_id n = uid ->
  key n ∈ key <$> rows <-> key n ∈ key <$> partition_of uid rows.
Proof.
  intros Hu. rewrite !list_elem_of_fmap. split; intros (m & Hk & Hm); exists m.
  - split; [done|]. apply list_elem_of_filter. split; [|done].
    unfold key in Hk. congruence.
  - split; [done|]. by apply list_elem_of_filter in Hm as [_ ?].
Qed.

Lemma creates_partition (uid : Z) (ch : EnvChoice) (n : Notification)
    (rows1 rows2 : list Notification) :
  user_id n = uid -> partition_of uid rows1 = partition_of uid rows2 ->
  creates ch n rows1 = creates ch n rows2.
Proof.
  intros Hu Hp. apply Bool.eq_true_iff_eq. rewrite !creates_true.
  by rewrite (key_in_partition uid rows1), (key_in_partition uid rows2), Hp.
Qed.

Lemma last_row_partition (uid : Z) (rows1 rows2 : list Notification) :
  partition_of uid rows1 = partition_of uid rows2 ->
  last_row uid rows1 = last_row uid rows2.
Proof. unfold last_row. by intros ->. Qed.

Lemma partition_of_cons (uid : Z) (n : Notification) (rows : list Notification) :
  partition_of uid (n :: rows) =
    if decide (user_id n = uid) then n :: partition_of uid rows
    else partition_of uid rows.
Proof. unfold partition_of. by rewrite filter_cons. Qed.

Lemma reads_of_app (evs1 evs2 : list IoEvent) :
  reads_of (evs1 ++ evs2) = reads_of evs1 ++ reads_of evs2.
Proof. apply omap_app. Qed.

Lemma writes_of_app (evs1 evs2 : list IoEvent) :
  writes_of (evs1 ++ evs2) = writes_of evs1 ++ writes_of evs2.
Proof. apply omap_app. Qed.

Section Alone.

Context {Payload : Type}.
Variable json_dumps : Payload -> Exception + string.

Lemma CreateForUser_partition (fuel : nat) (env : nat -> EnvChoice)
    (c : Call.t Payload) (consistent_read : bool) (w1 w2 : World) :
  partition_of (Call.user_id c) (table w1) = partition_of (Call.user_id c) (table w2) ->
  sees_all consistent_read (env 0%nat) ->
  (CreateForUser json_dumps fuel env c consistent_read w1).1
    = (CreateForUser json_dumps fuel env c consistent_read w2).1 /\
  partition_of (Call.user_id c)
      (table (CreateForUser json_dumps fuel env c consistent_read w1).2)
    = partition_of (Call.user_id c)
        (table (CreateForUser json_dumps fuel env c consistent_read w2).2).
Proof.
  revert env consistent_read w1 w2.
  induction fuel as [|fuel IH]; intros env cr w1 w2 Hp Hsees; [done|].
  rewrite !CreateForUser_S, !QueryLast_eq, !visible_fresh by done.
  rewrite (last_row_partition _ _ _ Hp).
  destruct (fault (env 0%nat)); [done|].
  destruct (candidate json_dumps c (last_row (Call.user_id c) (table w2)))
    as [e|n] eqn:Hc; [done|].
  pose proof (candidate_fields json_dumps c _ n Hc) as (Hu & _).
  cbn [logged table].
  rewrite (creates_partition (Call.user_id c) _ n (table w1) (table w2)) by done.
  destruct (creates (env 1%nat) n (table w2)).
  - cbn [snd fst committed logged table]. by rewrite !partition_of_cons, Hp.
  - apply IH; [done|by left].
Qed.

(** X7. Users do not interact.  On two tables that hold the same rows of a
    user, whatever rows of other users they hold besides, a [CreateForUser]
    call for that user whose first read misses nothing has the same outcome,
    iteration for iteration (the same row returned, the same error raised, or
    still retrying), and leaves the same rows of the user; a [TryClearBadge]
    call for that user returns the same boolean. *)
Theorem X7_other_users_do_not_matter (fuel : nat) (env : nat -> EnvChoice)
    (c : Call.t Payload) (consistent_read : bool) (w1 w2 : World) :
  partition_of (Call.user_id c) (table w1) = partition_of (Call.user_id c) (table w2) ->
  sees_all consistent_read (env 0%nat) ->
  (CreateForUser json_dumps fuel env c consistent_read w1).1
    = (CreateForUser json_dumps fuel env c consistent_read w2).1 /\
  partition_of (Call.user_id c)
      (table (CreateForUser json_dumps fuel env c consistent_read w1).2)
    = partition_of (Call.user_id c)
        (table (CreateForUser json_dumps fuel env c consistent_read w2).2) /\
  forall ch now device_id k,
    (TryClearBadge ch now (Call.user_id c) device_id k w1).1
      = (TryClearBadge ch now (Call.user_id c) device_id k w2).1.
Proof.
  intros Hp Hsees.
  destruct (CreateForUser_partition fuel env c consistent_read w1 w2 Hp Hsees)
    as [Hout Hrows].
  split; [exact Hout|]. split; [exact Hrows|].
  intros ch now device_id k. rewrite !TryClearBadge_eq.
  rewrite (creates_partition (Call.user_id c) ch _ (table w1) (table w2)) by done.
  by destruct (creates ch _ (table w2)).
Qed.

Lemma CreateForUser_raises_after_query (fuel : nat) (env : nat -> EnvChoice)
    (c : Call.t Payload) (consistent_read : bool) (w w' : World) (e : Exception) :
  CreateForUser json_dumps fuel env c consistent_read w = (inl e, w') ->
  exists k evs,
    (k < fuel)%nat /\
    trace w' = EvRangeQuery (Call.user_id c) (Some 1%nat) false
                 (match k with O => consistent_read | S _ => true end)
               :: evs ++ trace w /\
    length (reads_of evs) = k /\ length (writes_of evs) = k /\
    (fault (env (2 * k)%nat) = Some e \/
     (fault (env (2 * k)%nat) = None /\
      exists invalidate_dict,
        Call.invalidate c = Some invalidate_dict /\
        json_dumps invalidate_dict = inl e)).
Proof.
  revert env consistent_read w.
  induction fuel as [|fuel IH]; intros env cr w; [done|].
  rewrite CreateForUser_S, QueryLast_eq.
  destruct (fault (env 0%nat)) as [e0|] eqn:Hf.
  { intros [= <- <-]. exists 0%nat, []. split; [lia|]. split; [done|].
    split; [done|]. split; [done|]. by left. }
  destruct (candidate json_dumps c _) as [e1|n0] eqn:Hc.
  { intros [= <- <-]. exists 0%nat, []. split; [lia|]. split; [done|].
    split; [done|]. split; [done|]. right. split; [done|].
    by eapply candidate_raises. }
  destruct (creates (env 1%nat) n0 _) eqn:Hw; [done|].
  intros H. apply IH in H as (k & evs & Hk & Htr & Hr & Hwr & Horigin).
  exists (S k),
    (evs ++ [update_event n0;
             EvRangeQuery (Call.user_id c) (Some 1%nat) false cr]).
  split; [lia|]. split.
  { rewrite Htr. cbn [logged trace]. rewrite <- app_assoc.
    by destruct k. }
  rewrite reads_of_app, writes_of_app, !length_app, Hr, Hwr.
  split; [cbn; lia|]. split; [cbn; lia|].
  replace (2 * S k)%nat with (2 + 2 * k)%nat by lia. exact Horigin.
Qed.

(** X8. A call raises right after a query, at whatever iteration: the store
    failed that query, or answered it and the payload could not be encoded.
    The write of that iteration is not attempted.  The call has then made one
    query and one failed write in each iteration before, the query that
    raised being its last store call, and the table is as the call found it.
    When it is the first query that fails, or the encoding after it, that
    query is the only store call made. *)
Theorem X8_errors_come_before_the_write (fuel : nat) (env : nat -> EnvChoice)
    (c : Call.t Payload) (consistent_read : bool) (w : World) (e : Exception) :
  (forall w',
     CreateForUser json_dumps fuel env c consistent_read w = (inl e, w') ->
     table w' = table w /\
     exists k evs,
       (k < fuel)%nat /\
       trace w' = EvRangeQuery (Call.user_id c) (Some 1%nat) false
                    (match k with O => consistent_read | S _ => true end)
                  :: evs ++ trace w /\
       length (reads_of evs) = k /\ length (writes_of evs) = k /\
       (fault (env (2 * k)%nat) = Some e \/
        (fault (env (2 * k)%nat) = None /\
         exists invalidate_dict,
           Call.invalidate c = Some invalidate_dict /\
           json_dumps invalidate_dict = inl e))) /\
  (fault (env 0%nat) = Some e \/
   (fault (env 0%nat) = None /\
    exists invalidate_dict,
      Call.invalidate c = Some invalidate_dict /\ json_dumps invalidate_dict = inl e) ->
   exists w',
     CreateForUser json_dumps (S fuel) env c consistent_read w = (inl e, w') /\
     table w' = table w /\
     trace w' = EvRangeQuery (Call.user_id c) (Some 1%nat) false consistent_read
                :: trace w /\
     writes_of (trace w') = writes_of (trace w)).
Proof.
  split.
  - intros w' H. split; [by apply CreateForUser_raises in H as [Ht _]|].
    by apply CreateForUser_raises_after_query.
  - intros H. rewrite CreateForUser_S, QueryLast_eq.
    destruct H as [->|(-> & m & Hm & He)]; [by eexists|].
    assert (Hc : forall last, candidate json_dumps c last = inl e).
    { intros last. unfold candidate, SetInvalidate.
      destruct (next_id_badge last), (seq_nums _ _ _). by rewrite Hm, He. }
    rewrite Hc. by eexists.
Qed.

(** X9. The row that a call returns is the newest row of the table.  It is a
    row of the user the call was made for; it carries the name, the activity
    and the viewpoint given to the call, and the timestamp, user, device and
    operation id of the operation.  Its [invalidate] column is unset when no
    payload was given and holds the encoded payload otherwise, the empty
    mapping included. *)
Theorem X9_returned_row_copies_its_call (fuel : nat) (env : nat -> EnvChoice)
    (c : Call.t Payload) (consistent_read : bool) (w w' : World) (n : Notification) :
  CreateForUser json_dumps fuel env c consistent_read w = (inr (Some n), w') ->
  head (table w') = Some n /\
  user_id n = Call.user_id c /\ name n = Call.name c /\
  activity_id n = Call.activity_id c /\ viewpoint_id n = Call.viewpoint_id c /\
  timestamp n = Operation.timestamp (Call.operation c) /\
  sender_id n = Operation.user_id (Call.operation c) /\
  sender_device_id n = Operation.device_id (Call.operation c) /\
  op_id n = Some (Operation.operation_id (Call.operation c)) /\
  match Call.invalidate c with
  | Some invalidate_dict =>
      exists text, json_dumps invalidate_dict = inr text /\ invalidate n = Some text
  | None => invalidate n = None
  end.
Proof.
  intros ([last Hc] & _ & Htab)%CreateForUser_returns.
  split; [by rewrite Htab|].
  unfold candidate, SetInvalidate in Hc.
  destruct (next_id_badge last) as [i b], (seq_nums _ _ _) as [u v].
  destruct (Call.invalidate c) as [m|].
  - destruct (json_dumps m) as [e|text] eqn:Hd; [done|]. injection Hc as <-.
    repeat split; try done. by exists text.
  - injection Hc as <-. by repeat split.
Qed.

End Alone.

(** *** Calls in sequence, and the store calls they make *)

Section Sequence.

Context {Payload : Type}.
Variable json_dumps : Payload -> Exception + string.

Lemma candidate_on_top (c : Call.t Payload) (rows : list Notification)
    (n : Notification) :
  candidate json_dumps c (last_row (Call.user_id c) rows) = inr n ->
  user_id n = Call.user_id c /\
  notification_id n = (top_of (Call.user_id c) rows).1 + 1 /\
  badge n = (top_of (Call.user_id c) rows).2 + increment c /\
  top_of (Call.user_id c) (n :: rows) = (notification_id n, badge n).
Proof.
  intros Hn. pose proof (candidate_fields json_dumps c _ n Hn) as (Hu & Hi & Hb & _).
  assert (Habove : forall m, m ∈ rows -> user_id m = Call.user_id c ->
            notification_id m < notification_id n).
  { intros m Hm Hmu.
    destruct (last_row (Call.user_id c) rows) as [r|] eqn:Hl; simpl in Hi.
    - apply last_row_Some in Hl as (_ & _ & Hmax). specialize (Hmax m Hm Hmu). lia.
    - apply last_row_None in Hl.
      assert (Hin : m ∈ partition_of (Call.user_id c) rows)
        by by apply list_elem_of_filter.
      rewrite Hl in Hin. by apply elem_of_nil in Hin. }
  assert (Htop : top_of (Call.user_id c) (n :: rows) = (notification_id n, badge n)).
  { unfold top_of. by rewrite (last_row_cons_top (Call.user_id c) rows n Hu Habove). }
  split; [done|]. unfold top_of in Htop |- *.
  destruct (last_row (Call.user_id c) rows); simpl in Hi, Hb; cbn [fst snd];
    (split; [lia|]); (split; [lia|done]).
Qed.

(** X10. Calls for one user made one after the other, each with a strongly
    consistent read and an answering store, all return at their first attempt.
    The ids they commit are consecutive, starting after the highest id the
    user had, and each badge is the previous badge plus the increment of the
    call: the badge of the last row counts the calls that asked for an
    increment.  Their rows are the newest rows of the table, the latest
    first. *)
Theorem X10_calls_in_sequence (fuel : nat) (env : nat -> EnvChoice) (uid : Z)
    (calls : list (Call.t Payload)) (w : World) :
  fault (env 0%nat) = None -> fault (env 1%nat) = None ->
  Forall (fun c => Call.user_id c = uid /\ encodable json_dumps c) calls ->
  let rows := (create_all json_dumps (S fuel) env calls w).1 in
  length rows = length calls /\
  notification_id <$> rows
    = seqZ ((top_of uid (table w)).1 + 1) (Z.of_nat (length calls)) /\
  badge <$> rows = badges_from (top_of uid (table w)).2 calls /\
  table (create_all json_dumps (S fuel) env calls w).2 = reverse rows ++ table w.
Proof.
  intros Hf0 Hf1 Hcalls. cbn zeta. revert w.
  induction Hcalls as [|c calls [Hu Henc] _ IH]; intros w; [done|].
  cbn [create_all].
  destruct (CreateForUser_sees_all json_dumps fuel env c true w
              (or_introl eq_refl) Hf0 Hf1 Henc) as (n & Hn & ->).
  apply candidate_on_top in Hn as (_ & Hi & Hb & Htop). rewrite Hu in Hi, Hb, Htop.
  specialize (IH (committed n
                    (logged (EvRangeQuery (Call.user_id c) (Some 1%nat) false true) w))).
  destruct (create_all json_dumps (S fuel) env calls _) as [ns w''].
  cbn [fst snd committed logged table] in IH |- *. rewrite Htop in IH.
  destruct IH as (Hlen & Hids & Hbadges & Htab). cbn [fst snd] in Hids, Hbadges.
  split; [cbn [length]; by rewrite Hlen|]. split; [|split].
  - rewrite fmap_cons, seqZ_cons by (cbn [length]; lia). f_equal; [done|].
    rewrite Hids, Hi. f_equal; cbn [length]; lia.
  - rewrite fmap_cons. cbn [badges_from]. rewrite <- Hb. by f_equal.
  - rewrite Htab, reverse_cons, <- app_assoc. done.
Qed.

(** X11. A call makes two store calls per iteration, a read and then a write,
    and only its first read uses the consistency level it was given: every
    read after a failed write is strongly consistent.  A call that returns
    after [k] failed attempts has made [k + 1] reads and [k + 1] writes, the
    last write being the row it returns; a call that raises has made one read
    more than writes. *)
Theorem X11_two_store_calls_per_iteration (fuel : nat) (env : nat -> EnvChoice)
    (c : Call.t Payload) (consistent_read : bool) (w : World) :
  exists evs,
    trace (CreateForUser json_dumps fuel env c consistent_read w).2 = evs ++ trace w /\
    match (CreateForUser json_dumps fuel env c consistent_read w).1 with
    | inr (Some n) =>
        exists k, (k < fuel)%nat /\
          reads_of evs = replicate k true ++ [consistent_read] /\
          length (writes_of evs) = S k /\ head (writes_of evs) = Some n
    | inr None =>
        (fuel = 0%nat /\ evs = []) \/
        (exists k, fuel = S k /\
           reads_of evs = replicate k true ++ [consistent_read] /\
           length (writes_of evs) = fuel)
    | inl e =>
        exists k, (k < fuel)%nat /\
          reads_of evs = replicate k true ++ [consistent_read] /\
          length (writes_of evs) = k
    end.
Proof.
  revert env consistent_read w.
  induction fuel as [|fuel IH]; intros env cr w.
  { exists []. split; [done|]. by left. }
  rewrite CreateForUser_S, QueryLast_eq.
  set (Q := EvRangeQuery (Call.user_id c) (Some 1%nat) false cr).
  destruct (fault (env 0%nat)) as [e|].
  { exists [Q]. split; [done|]. exists 0%nat. split; [lia|done]. }
  destruct (candidate json_dumps c _) as [e|n].
  { exists [Q]. split; [done|]. exists 0%nat. split; [lia|done]. }
  destruct (creates (env 1%nat) n _).
  { exists [update_event n; Q]. split; [done|]. exists 0%nat. split; [lia|done]. }
  destruct (IH (fun i => env (2 + i)%nat) true (logged (update_event n) (logged Q w)))
    as (evs & Htr & Hres).
  exists (evs ++ [update_event n; Q]). split.
  { rewrite Htr. cbn [logged trace]. by rewrite <- app_assoc. }
  rewrite reads_of_app, writes_of_app. cbn [reads_of writes_of omap update_event Q].
  destruct (CreateForUser json_dumps fuel _ c true _).1 as [e|[m|]].
  - destruct Hres as (k & Hk & Hr & Hw). exists (S k). split; [lia|].
    rewrite Hr, <- replicate_S_end, length_app, Hw. cbn. split; [done|lia].
  - destruct Hres as (k & Hk & Hr & Hw & Hh). exists (S k). split; [lia|].
    rewrite Hr, <- replicate_S_end, length_app, Hw. cbn.
    split; [done|]. split; [lia|].
    destruct (writes_of evs); [done|exact Hh].
  - right. destruct Hres as [[-> ->]|(k & -> & Hr & Hw)].
    + exists 0%nat. by split.
    + exists (S k). split; [done|].
      rewrite Hr, <- replicate_S_end, length_app, Hw. cbn. split; [done|lia].
Qed.

End Sequence.

(** *** Why a write fails *)

Section Progress.

Context {Payload : Type}.
Variable json_dumps : Payload -> Exception + string.

(** X12. A conflict after a read that missed nothing means that somebody else
    got the id.  If a call built its candidate from such a read, and later the
    store answers the write but [_TryUpdate] returns [False], then the table
    holds a row under the candidate's key that was not there at the time of
    the read: another call committed it in between, so the pool as a whole has
    made progress.  The failed write leaves the table as it is. *)
Theorem X12_conflict_means_another_call_committed (ch ch2 : EnvChoice)
    (c : Call.t Payload) (consistent_read : bool) (w w1 w2 w3 : World)
    (last : option Notification) (n : Notification) :
  sees_all consistent_read ch ->
  QueryLast ch (Call.user_id c) consistent_read w = (inr last, w1) ->
  candidate json_dumps c last = inr n ->
  fault ch2 = None ->
  _TryUpdate ch2 n w2 = (inr false, w3) ->
  exists m, m ∈ table w2 /\ (m ∉ table w) /\ key m = key n /\ table w3 = table w2.
Proof.
  intros Hsees Hq Hc Hf2 Htry.
  rewrite QueryLast_eq in Hq. destruct (fault ch); [done|].
  injection Hq as <- <-. rewrite visible_fresh in Hc by done.
  pose proof (candidate_fields json_dumps c _ n Hc) as (Hu & Hi & _).
  assert (Hfresh : key n ∉ (key <$> table w)) by by eapply fresh_after_last.
  rewrite TryUpdate_eq in Htry.
  destruct (creates ch2 n (table w2)) eqn:Hw; [done|]. injection Htry as <-.
  assert (Hin : key n ∈ key <$> table w2).
  { destruct (decide (key n ∈ key <$> table w2)) as [|Hnot]; [done|].
    assert (creates ch2 n (table w2) = true) by by apply creates_true.
    congruence. }
  apply list_elem_of_fmap in Hin as (m & Hk & Hm).
  exists m. split; [done|]. split; [|done].
  intros Hmw. apply Hfresh. rewrite Hk. apply list_elem_of_fmap. eauto.
Qed.

End Progress.

(** *** The further properties on concrete calls *)

(** A read that misses the marker with id 5 makes the call commit id 1. *)
Lemma X2_stale_read_fills_below :
  fault Example.stale = None /\ encodable Json.encode Example.comment /\
  ((7, 1) ∉ (key <$> table Example.marked)) /\
  Example.marker ∈ table Example.marked /\ notification_id Example.marker = 5 /\
  exists n,
    CreateForUser Json.encode 1 (fun _ => Example.stale) Example.comment false
        Example.marked
      = (inr (Some n),
         committed n (logged (EvRangeQuery 7 (Some 1%nat) false false) Example.marked)) /\
    user_id n = 7 /\ notification_id n = 1 /\ badge n = 0 + 1.
Proof.
  assert (Hfree : (7, 1) ∉ (key <$> table Example.marked)).
  { apply not_elem_of_cons. split; [done|apply not_elem_of_nil]. }
  split; [reflexivity|]. split; [exact I|]. split; [exact Hfree|].
  split; [left|]. split; [reflexivity|].
  exact (X2_first_attempt_follows_seen_row Json.encode 0 (fun _ => Example.stale)
           Example.comment false Example.marked eq_refl eq_refl I Hfree).
Defined.


(** A marker with id 5 on [Scenario.busy]: the next row has id 6, badge 1. *)
Lemma X4_marker_on_top :
  fault healthy = None /\ ((7, 5) ∉ (key <$> table Scenario.busy)) /\
  (forall m, m ∈ table Scenario.busy -> user_id m = 7 -> notification_id m < 5) /\
  TryClearBadge healthy 1002 7 70 5 Scenario.busy
    = (inr true, committed Example.marker Scenario.busy) /\
  exists n w',
    CreateForUser Json.encode 1 (fun _ => healthy) Example.comment true
        (committed Example.marker Scenario.busy) = (inr (Some n), w') /\
    notification_id n = 5 + 1 /\ badge n = 1.
Proof.
  assert (Hfree : (7, 5) ∉ (key <$> table Scenario.busy)).
  { intros Hin. repeat (apply elem_of_cons in Hin as [Hin|Hin]; [done|]).
    by apply elem_of_nil in Hin. }
  assert (Hbelow : forall m, m ∈ table Scenario.busy -> user_id m = 7 ->
                             notification_id m < 5).
  { intros m Hm Hu.
    repeat (apply elem_of_cons in Hm as [->|Hm]; [by simpl in *|]).
    by apply elem_of_nil in Hm. }
  split; [reflexivity|]. split; [exact Hfree|]. split; [exact Hbelow|].
  destruct (X4_clear_badges_resets_badge_only_on_top Json.encode healthy 1002 7 70 5
              Scenario.busy eq_refl Hfree) as [Hclear Hnext].
  split; [exact Hclear|].
  destruct (Hnext 0%nat (fun _ => healthy) Example.comment true eq_refl
              (or_introl eq_refl) eq_refl eq_refl I) as (n & w' & Hrun & Htop & _).
  exists n, w'. split; [exact Hrun|]. exact (Htop Hbelow).
Defined.

(** The race of [Example.race] adds three rows for three successful calls. *)
Lemma X5_race_accounts :
  (forall n, n ∈ returned Example.calls -> n ∈ table Example.empty) /\
  let s := run Json.encode Example.race
             {| pool := Example.calls; world := Example.empty |} in
  (length (table (world s)) + 0 = 0 + 3)%nat /\
  (forall n, n ∈ returned (pool s) -> n ∈ table (world s)).
Proof.
  assert (H0 : forall n, n ∈ returned Example.calls -> n ∈ table Example.empty)
    by (intros n Hn; by apply elem_of_nil in Hn).
  split; [exact H0|].
  destruct (X5_one_row_per_successful_call Json.encode Example.calls Example.empty
              Example.race H0) as (Hlen & _ & _ & Hst).
  split; [exact Hlen|exact Hst].
Defined.

(** In that race every row has a positive id and a badge of at least 0. *)
Lemma X6_race_rows_sound :
  Forall sound_row (table Example.empty) /\
  Forall (fun t : Task Json.value => forall n, pending_row t = Some n -> sound_row n)
    Example.calls /\
  Forall sound_row
    (table (world (run Json.encode Example.race
                     {| pool := Example.calls; world := Example.empty |}))).
Proof.
  assert (Hts : Forall (fun t : Task Json.value =>
                          forall n, pending_row t = Some n -> sound_row n)
                  Example.calls).
  { constructor; [by intros n [=]|]. constructor; [by intros n [=]|].
    constructor; [|constructor]. intros n [= <-]. by unfold sound_row. }
  split; [constructor|]. split; [exact Hts|].
  exact (proj1 (X6_ids_positive_badges_not_negative Json.encode Example.calls
                  Example.empty Example.race (List.Forall_nil _) Hts)).
Defined.

(** [Scenario.busy] and [Scenario.busy_elsewhere] differ in the rows of user 8. *)
Lemma X7_same_rows_of_user_7 :
  partition_of 7 (table Scenario.busy) = partition_of 7 (table Scenario.busy_elsewhere) /\
  sees_all true healthy /\
  (CreateForUser Json.encode 2 (fun _ => healthy) Example.comment true Scenario.busy).1
    = (CreateForUser Json.encode 2 (fun _ => healthy) Example.comment true
         Scenario.busy_elsewhere).1.
Proof.
  split; [reflexivity|]. split; [by left|].
  exact (proj1 (X7_other_users_do_not_matter Json.encode 2 (fun _ => healthy)
                  Example.comment true Scenario.busy Scenario.busy_elsewhere
                  eq_refl (or_introl eq_refl))).
Defined.

(** The store refuses the first query, or the encoder refuses the payload:
    the call raises, without writing.  When the first write times out and the
    second query is refused, the call raises after two queries and the one
    failed write, the table unchanged. *)
Lemma X8_query_refused :
  fault (Scenario.reads_fail 0%nat) = Some (StoreError "unavailable") /\
  (exists w',
     CreateForUser Json.encode 3 Scenario.reads_fail Example.share false Scenario.busy
       = (inl (StoreError "unavailable"), w') /\
     table w' = table Scenario.busy /\
     trace w' = EvRangeQuery 7 (Some 1%nat) false false :: trace Scenario.busy /\
     writes_of (trace w') = writes_of (trace Scenario.busy)) /\
  (exists w',
     CreateForUser (fun _ : Json.value => inl EncodingError) 3 (fun _ => healthy)
         Example.share false Scenario.busy
       = (inl EncodingError, w') /\
     table w' = table Scenario.busy /\
     trace w' = EvRangeQuery 7 (Some 1%nat) false false :: trace Scenario.busy /\
     writes_of (trace w') = writes_of (trace Scenario.busy)) /\
  let late :=
    {| table := table Scenario.busy;
       trace := [EvRangeQuery 7 (Some 1%nat) false true;
                 EvUpdate Cases.share_row (ExpectAbsent col_notification_id);
                 EvRangeQuery 7 (Some 1%nat) false false] |} in
  CreateForUser Json.encode 3 Cases.late_failure Example.share false Scenario.busy
    = (inl (StoreError "unavailable"), late) /\
  table late = table Scenario.busy /\
  exists k evs,
    (k < 3)%nat /\
    trace late = EvRangeQuery 7 (Some 1%nat) false
                   (match k with O => false | S _ => true end)
                 :: evs ++ trace Scenario.busy /\
    length (reads_of evs) = k /\ length (writes_of evs) = k /\
    (fault (Cases.late_failure (2 * k)%nat) = Some (StoreError "unavailable") \/
     (fault (Cases.late_failure (2 * k)%nat) = None /\
      exists invalidate_dict,
        Call.invalidate Example.share = Some invalidate_dict /\
        Json.encode invalidate_dict = inl (StoreError "unavailable"))).
Proof.
  split; [reflexivity|]. split.
  { exact (proj2 (X8_errors_come_before_the_write Json.encode 2 Scenario.reads_fail
                    Example.share false Scenario.busy (StoreError "unavailable"))
             (or_introl eq_refl)). }
  split.
  { exact (proj2 (X8_errors_come_before_the_write
                    (fun _ : Json.value => inl EncodingError)
                    2 (fun _ => healthy) Example.share false Scenario.busy
                    EncodingError)
             (or_intror (conj eq_refl
                (ex_intro _ Example.payload (conj eq_refl eq_refl))))). }
  intros late. split; [reflexivity|].
  exact (proj1 (X8_errors_come_before_the_write Json.encode 3 Cases.late_failure
                  Example.share false Scenario.busy (StoreError "unavailable"))
           late eq_refl).
Defined.

(** One write that times out: two reads, the second strong, and two writes. *)
Lemma X11_one_timeout :
  exists evs,
    trace (CreateForUser Json.encode 3 Scenario.flaky Example.comment false
             Example.empty).2 = evs ++ [] /\
    exists k, (k < 3)%nat /\
      reads_of evs = replicate k true ++ [false] /\
      length (writes_of evs) = S k /\
      head (writes_of evs) = Some (Example.comment_row 1 1).
Proof.
  exact (X11_two_store_calls_per_iteration Json.encode 3 Scenario.flaky
           Example.comment false Example.empty).
Defined.

(** The row of [Example.share]: its name, its sender and its payload. *)
Lemma X9_share_row :
  exists n w',
    CreateForUser Json.encode 1 (fun _ => healthy) Example.share false Example.empty
      = (inr (Some n), w') /\
    head (table w') = Some n /\ user_id n = 7 /\ name n = "share" /\
    sender_id n = 7 /\ sender_device_id n = 70 /\ op_id n = Some "op-1" /\
    invalidate n = Some (Json.dumps Example.payload).
Proof.
  eexists _, _. split; [reflexivity|].
  destruct (X9_returned_row_copies_its_call Json.encode 1 (fun _ => healthy)
              Example.share false Example.empty _ _ eq_refl)
    as (Hhead & Hu & Hname & _ & _ & _ & Hs & Hd & Hop & text & Htext & Hinv).
  split; [exact Hhead|]. split; [exact Hu|]. split; [exact Hname|].
  split; [exact Hs|]. split; [exact Hd|]. split; [exact Hop|].
  injection Htext as <-. exact Hinv.
Defined.

(** Three calls after row 3 with badge 2: ids 4, 5, 6 and badges 2, 3, 4. *)
Lemma X10_three_calls :
  Forall (fun c => Call.user_id c = 7 /\ encodable Json.encode c) Scenario.three_calls /\
  let rows := (create_all Json.encode 1 (fun _ => healthy) Scenario.three_calls
                 Scenario.busy).1 in
  notification_id <$> rows = [4; 5; 6] /\ badge <$> rows = [2; 3; 4].
Proof.
  assert (Hcalls : Forall (fun c => Call.user_id c = 7 /\ encodable Json.encode c)
                     Scenario.three_calls).
  { repeat constructor. }
  split; [exact Hcalls|].
  destruct (X10_calls_in_sequence Json.encode 0 (fun _ => healthy) 7
              Scenario.three_calls Scenario.busy eq_refl eq_refl Hcalls)
    as (_ & Hids & Hbadges & _).
  split; [exact Hids|exact Hbadges].
Defined.

(** A call read the marker, built row 6, and finds id 6 taken. *)
Lemma X12_id_6_taken :
  sees_all false healthy /\
  QueryLast healthy 7 false Example.marked
    = (inr (Some Example.marker),
       logged (EvRangeQuery 7 (Some 1%nat) false false) Example.marked) /\
  candidate Json.encode Example.comment (Some Example.marker)
    = inr (Example.comment_row 6 1) /\
  _TryUpdate healthy (Example.comment_row 6 1) Scenario.taken
    = (inr false, logged (update_event (Example.comment_row 6 1)) Scenario.taken) /\
  exists m, m ∈ table Scenario.taken /\ (m ∉ table Example.marked) /\
            key m = (7, 6).
Proof.
  split; [by right|]. split; [reflexivity|]. split; [reflexivity|].
  split; [reflexivity|].
  destruct (X12_conflict_means_another_call_committed Json.encode healthy healthy
              Example.comment false Example.marked _ Scenario.taken _
              (Some Example.marker) (Example.comment_row 6 1)
              (or_intror eq_refl) eq_refl eq_refl eq_refl eq_refl)
    as (m & Hm & Hnew & Hk & _).
  exists m. split; [exact Hm|]. split; [exact Hnew|exact Hk].
Defined.
